(** * SkillForgeAI: token signing, the TTL store, uploads and the client state

    A shallow embedding of
    [backend/src/infrastructure/services/jwt.service.ts] and
    [backend/src/infrastructure/services/redis.service.ts], with the session
    layer that the specification builds on top of them; of the bulk upload of
    images ([BulkUploadImagesUseCase]); and, of the frontend, of the Axios
    interceptors with the token helpers ([lib/axios]) and the reducers of
    [store/slices/authSlice.ts] and [store/slices/roadmapSlice.ts].

    The two services are thin wrappers around the [jsonwebtoken] and [redis]
    packages.  Neither package is part of the repository, so the behaviour the
    services rely on is written out here once (sections "jsonwebtoken" and
    "redis client"), over the primitives collected in the class [Primitives]
    (JSON, base64url, the MAC of the JWS algorithms, the [ms] duration parser).
    Time is the number of seconds since the epoch, [Math.floor(Date.now() / 1000)],
    and is passed to every operation that reads the clock. *)

From Stdlib Require Import ZArith Lia Ascii.
From stdpp Require Import base decidable option countable strings pretty list gmap fin_maps.

Local Open Scope Z_scope.

(** ** JavaScript values and completions *)

(** The values found in token payloads and stored records: strings and
    (integral) numbers. *)
Inductive jvalue : Type :=
| JStr (s : string)
| JNum (n : Z).

Global Instance jvalue_eq_dec : EqDecision jvalue.
Proof. solve_decision. Defined.

Global Instance jvalue_countable : Countable jvalue :=
  inj_countable'
    (fun v => match v with JStr s => inl s | JNum n => inr n end)
    (fun x => match x with inl s => JStr s | inr n => JNum n end)
    (fun v => match v with JStr _ => eq_refl | JNum _ => eq_refl end).

(** A plain JS object used as a record of claims. *)
Abbreviation object := (gmap string jvalue).

(** What a call can throw: a plain [Error], or one of the error classes of
    [jsonwebtoken] ([NotBeforeError] and [TokenExpiredError] extend
    [JsonWebTokenError] there). *)
Inductive exn : Type :=
| Error (message : string)
| JsonWebTokenError (message : string)
| NotBeforeError (message : string)
| TokenExpiredError (message : string) (expiredAt : Z).

(** The errors of [jsonwebtoken]'s own classes. *)
Definition is_jwt_error (e : exn) : bool :=
  match e with
  | Error _ => false
  | JsonWebTokenError _ | NotBeforeError _ | TokenExpiredError _ _ => true
  end.

(** A call either returns or throws. *)
Inductive completion (A : Type) : Type :=
| Return (a : A)
| Throw (e : exn).
Arguments Return {A} a.
Arguments Throw {A} e.

Definition returned {A} (c : completion A) : bool :=
  match c with Return _ => true | Throw _ => false end.

(** What awaiting an asynchronous call comes to: the promise settles, by a
    return or a throw, or it stays pending for ever. *)
Inductive awaited (A : Type) : Type :=
| Settled (c : completion A)
| Pending.
Arguments Settled {A} c.
Arguments Pending {A}.
Coercion Settled : completion >-> awaited.

(** A JavaScript number, as far as the model tells numbers apart: a whole
    number, or a number that is not one (a fraction, [NaN], an infinity). *)
Inductive number : Type :=
| Whole (z : Z)
| NotWhole.
Coercion Whole : Z >-> number.

(** The double nearest to a whole number: the number itself up to [2 ^ 53],
    and beyond that the nearest multiple of the power of two that leaves 53
    bits, the even one of two that are equally near. *)
Definition to_double (z : Z) : Z :=
  let a := Z.abs z in
  if decide (a <= 2 ^ 53) then z
  else
    let e := Z.log2 a - 52 in
    let q := a / 2 ^ e in
    let r := a mod 2 ^ e in
    let half := 2 ^ (e - 1) in
    let q' :=
      if decide (r < half) then q
      else if decide (half < r) then q + 1
      else if Z.even q then q else q + 1 in
    Z.sgn z * (q' * 2 ^ e).

(** The double nearest to the quotient [n / d] of two positive whole numbers,
    as the pair [(m, e)] that stands for [m * 2 ^ e], with [m] of 53 bits
    (the even one of two that are equally near); [scaled n d k] is the
    fraction [n / d * 2 ^ k]. *)
Definition scaled (n d k : Z) : Z * Z :=
  if decide (0 <= k) then (n * 2 ^ k, d) else (n, d * 2 ^ (- k)).

Definition nearest_double (n d : Z) : Z * Z :=
  let k0 := 53 - (Z.log2 n - Z.log2 d) in
  let k := if decide (2 ^ 53 <= (scaled n d k0).1 / (scaled n d k0).2) then k0 - 1 else k0 in
  let (N, D) := scaled n d k in
  let q := N / D in
  let r := N mod D in
  let m :=
    if decide (2 * r < D) then q
    else if decide (D < 2 * r) then q + 1
    else if Z.even q then q else q + 1 in
  (m, - k).

(** [Math.round] of the positive double [m * 2 ^ e]: the nearest whole
    number, the upper one of two that are equally near. *)
Definition Math_round (x : Z * Z) : Z :=
  let (m, e) := x in
  if decide (0 <= e) then m * 2 ^ e else (2 * m + 2 ^ (- e)) / 2 ^ (1 - e).

(** [a + b] for two whole numbers that are doubles: the sum is rounded to
    the nearest double, and is an infinity from [2 ^ 1024] on. *)
Definition number_add (a b : Z) : number :=
  let sum := to_double (a + b) in
  if decide (Z.abs sum < 2 ^ 1024) then Whole sum else NotWhole.

Definition is_some {A} (o : option A) : bool :=
  match o with Some _ => true | None => false end.

(** ** Strings *)

Fixpoint string_forallb (p : ascii -> bool) (s : string) : bool :=
  match s with
  | EmptyString => true
  | String c r => p c && string_forallb p r
  end.

(** [s.split(sep)] for a one-character separator. *)
Fixpoint split (sep : ascii) (s : string) : list string :=
  match s with
  | EmptyString => [EmptyString]
  | String c r =>
      if Ascii.eqb c sep then EmptyString :: split sep r
      else match split sep r with
           | seg :: segs => String c seg :: segs
           | [] => [String c EmptyString]
           end
  end.

Definition not_dot (c : ascii) : bool := negb (Ascii.eqb c ".").

(** [s.trim() === ''] (on the ASCII white space). *)
Definition is_blank (s : string) : bool := string_forallb Ascii.is_space s.

(** The base64url alphabet: letters, digits, [-] and [_]. *)
Definition is_base64url_char (c : ascii) : bool :=
  let n := nat_of_ascii c in
  ((65 <=? n) && (n <=? 90) || (97 <=? n) && (n <=? 122) ||
   (48 <=? n) && (n <=? 57) || (n =? 45) || (n =? 95))%nat.

Definition dquote : string := String (ascii_of_nat 34) EmptyString.

(** ** Primitives of the platform

    The operations of Node and of the packages below [jsonwebtoken] that the
    model does not open up, with the properties it uses of them. *)
Class Primitives : Type := {
  (** [JSON.stringify] and [JSON.parse] on objects of strings and numbers *)
  JSON_stringify : object -> string;
  JSON_parse : string -> option object;
  (** base64url without padding, and its decoder *)
  base64url : string -> string;
  base64url_decode : string -> option string;
  (** [jwa(alg).sign(input, secret)]: the base64url text of the MAC *)
  jwa_sign : string -> string -> string -> string;
  (** the [ms] package: a duration text such as [15m] or [7d] in milliseconds,
      rounded down to whole milliseconds; [None] where [ms] yields [undefined] *)
  ms : string -> option Z;
  JSON_parse_stringify : forall o, JSON_parse (JSON_stringify o) = Some o;
  JSON_stringify_nonempty : forall o, JSON_stringify o <> EmptyString;
  base64url_decode_encode : forall s, base64url_decode (base64url s) = Some s;
  base64url_alphabet : forall s, string_forallb is_base64url_char (base64url s) = true;
  base64url_nonempty : forall s, s <> EmptyString -> base64url s <> EmptyString;
  jwa_sign_alphabet :
    forall alg k m, string_forallb is_base64url_char (jwa_sign alg k m) = true;
  jwa_sign_nonempty : forall alg k m, jwa_sign alg k m <> EmptyString;
  (** a cryptographic digest of a text, as its hexadecimal or base64 text *)
  digest : string -> string;
}.

(** ** jsonwebtoken

    [jwt.sign(payload, secret, { expiresIn })] and [jwt.verify(token, secret)]
    for an object payload, a string secret and a string [expiresIn], which is
    how [JwtService] calls them. *)
Section Jsonwebtoken.
Context {prims : Primitives}.

Definition jwt_header : object :=
  <["alg" := JStr "HS256"]> (<["typ" := JStr "JWT"]> ∅).

(** [jws.sign]: the compact serialization [header.payload.signature]. *)
Definition jws_sign (alg : string) (header payload : object) (secret : string) : string :=
  let securedInput :=
    base64url (JSON_stringify header) +:+ "." +:+ base64url (JSON_stringify payload) in
  securedInput +:+ "." +:+ jwa_sign alg secret securedInput.

Definition expiresIn_message : string :=
  dquote +:+ "expiresIn" +:+ dquote +:+
  " should be a number of seconds or string representing a timespan".

(** The message for a time span that [ms] does not understand ends in
    examples. *)
Definition expiresIn_eg_message : string :=
  expiresIn_message +:+ " eg: " +:+ dquote +:+ "1d" +:+ dquote +:+ ", " +:+
  dquote +:+ "20h" +:+ dquote +:+ ", 60".

(** [timespan(time, iat)] for a string: [Math.floor(iat + ms(time) / 1000)]. *)
Definition timespan (time : string) (iat : Z) : option Z :=
  match ms time with
  | Some milliseconds => Some (iat + milliseconds / 1000)
  | None => None
  end.

(** [jwt.sign]: the secret and the option are validated (an empty string is
    no time span), [iat] is stamped with the clock, [exp] is [iat] plus the
    time span, and the result is signed with HS256. *)
Definition jwt_sign (payload : object) (secret : string) (expiresIn : string)
    (now : Z) : completion string :=
  if decide (secret = "") then Throw (Error "secretOrPrivateKey must have a value")
  else if decide (expiresIn = "") then Throw (Error expiresIn_message)
  else
    let timestamp := now in
    let payload := <["iat" := JNum timestamp]> payload in
    match timespan expiresIn timestamp with
    | None => Throw (Error expiresIn_eg_message)
    | Some exp =>
        Return (jws_sign "HS256" jwt_header (<["exp" := JNum exp]> payload) secret)
    end.

Definition HS_ALGS : list string := ["HS256"; "HS384"; "HS512"].

(** A header or payload segment read back: base64url, then JSON. *)
Definition jws_decode_segment (seg : string) : option object :=
  match base64url_decode seg with
  | Some text => JSON_parse text
  | None => None
  end.

(** The shape of a compact JWS, which [jws] tests before it decodes
    anything: a header and a payload segment of one or more characters of the
    base64url alphabet, and a signature segment of none or more. *)
Definition is_base64url (s : string) : bool := string_forallb is_base64url_char s.

Definition is_jws (h p s : string) : bool :=
  bool_decide (h <> "") && is_base64url h &&
  bool_decide (p <> "") && is_base64url p && is_base64url s.

(** A token taken apart: header and payload read back, the signature segment,
    and the text that the signature is computed on. *)
Record Decoded : Type := {
  header : object;
  payload : object;
  signature : string;
  securedInput : string;
}.

(** [jwt.decode(token, { complete: true })], after the three-segment test of
    [jwt.verify]: [None] for a text that is not three dot-separated segments,
    that has not the shape of a JWS, or whose header or payload does not
    decode. *)
Definition jwt_decode (jwtString : string) : option Decoded :=
  match split "." jwtString with
  | [h; p; s] =>
      if is_jws h p s then
        match jws_decode_segment h, jws_decode_segment p with
        | Some header, Some payload =>
            Some {| header := header; payload := payload; signature := s;
                    securedInput := h +:+ "." +:+ p |}
        | _, _ => None
        end
      else None
  | _ => None
  end.

Definition none_message : string :=
  "please specify " +:+ dquote +:+ "none" +:+ dquote +:+ " in " +:+ dquote +:+
  "algorithms" +:+ dquote +:+ " to verify unsigned tokens".

(** The [exp] check of [jwt.verify], with [options.clockTolerance] (0 when the
    option is not given). *)
Definition check_exp (payload : object) (clockTolerance clockTimestamp : Z)
    : completion object :=
  match payload !! "exp" with
  | Some (JStr _) => Throw (JsonWebTokenError "invalid exp value")
  | Some (JNum exp) =>
      if decide (clockTimestamp >= exp + clockTolerance)
      then Throw (TokenExpiredError "jwt expired" exp)
      else Return payload
  | None => Return payload
  end.

(** The [nbf] check, followed by the [exp] check. *)
Definition check_claims (payload : object) (clockTolerance clockTimestamp : Z)
    : completion object :=
  match payload !! "nbf" with
  | Some (JStr _) => Throw (JsonWebTokenError "invalid nbf value")
  | Some (JNum nbf) =>
      if decide (nbf > clockTimestamp + clockTolerance)
      then Throw (NotBeforeError "jwt not active")
      else check_exp payload clockTolerance clockTimestamp
  | None => check_exp payload clockTolerance clockTimestamp
  end.

(** [jwt.verify] with a string secret and no [algorithms] option: the token
    must have three dot-separated segments in the shape of a JWS whose first
    two decode, a signature, an HMAC algorithm in its header and the signature
    that the secret gives on the first two segments; then the time claims are
    checked.  (The secret is a text that is not key material in PEM form, so
    it is taken as an HMAC secret.) *)
Definition jwt_verify (jwtString secret : string) (clockTolerance clockTimestamp : Z)
    : completion object :=
  if decide (jwtString = "") then Throw (JsonWebTokenError "jwt must be provided")
  else
    match split "." jwtString with
    | [h; p; s] =>
        if is_jws h p s then
          match jws_decode_segment h, jws_decode_segment p with
          | Some header, Some payload =>
              if is_blank s then
                if decide (secret = "") then Throw (JsonWebTokenError none_message)
                else Throw (JsonWebTokenError "jwt signature is required")
              else if decide (secret = "")
              then Throw (JsonWebTokenError "secret or public key must be provided")
              else
                match header !! "alg" with
                | Some (JStr alg) =>
                    if bool_decide (alg ∈ HS_ALGS) then
                      if decide (s = jwa_sign alg secret (h +:+ "." +:+ p))
                      then check_claims payload clockTolerance clockTimestamp
                      else Throw (JsonWebTokenError "invalid signature")
                    else Throw (JsonWebTokenError "invalid algorithm")
                | _ => Throw (JsonWebTokenError "invalid algorithm")
                end
          | _, _ => Throw (JsonWebTokenError "invalid token")
          end
        else Throw (JsonWebTokenError "invalid token")
    | _ => Throw (JsonWebTokenError "jwt malformed")
    end.

End Jsonwebtoken.

(** ** jwt.service.ts *)

(** [config/env.config] is not among the sources; the service reads these four
    fields of it. *)
Record Env : Type := {
  ACCESS_TOKEN_SECRET : string;
  REFRESH_TOKEN_SECRET : string;
  ACCESS_TOKEN_EXPIRY : string;
  REFRESH_TOKEN_EXPIRY : string;
}.

Module JwtService.
Section JwtService.
Context {prims : Primitives}.

Record t : Type := {
  _accessSecret : string;
  _refreshSecret : string;
  _accessExpiry : string;
  _refreshExpiry : string;
}.

(** The field initialisers of the class. *)
Definition new (env : Env) : t := {|
  _accessSecret := ACCESS_TOKEN_SECRET env;
  _refreshSecret := REFRESH_TOKEN_SECRET env;
  _accessExpiry := ACCESS_TOKEN_EXPIRY env;
  _refreshExpiry := REFRESH_TOKEN_EXPIRY env;
|}.

(** The two methods per kind of token, as the specification's
    [verify(token, kind)] and [issue] address them. *)
Inductive TokenKind : Type := AccessToken | RefreshToken.

Definition secret_of (this : t) (k : TokenKind) : string :=
  match k with
  | AccessToken => _accessSecret this
  | RefreshToken => _refreshSecret this
  end.

Definition expiry_of (this : t) (k : TokenKind) : string :=
  match k with
  | AccessToken => _accessExpiry this
  | RefreshToken => _refreshExpiry this
  end.

(** The object [{ userId }] once [jwt.sign] has stamped [iat] and [exp] on it. *)
Definition signed_claims (userId : string) (iat exp : Z) : object :=
  <["exp" := JNum exp]> (<["iat" := JNum iat]> (<["userId" := JStr userId]> ∅)).

Definition generateAccessToken (this : t) (now : Z) (userId : string)
    : completion string :=
  jwt_sign (<["userId" := JStr userId]> ∅) (_accessSecret this) (_accessExpiry this) now.

Definition generateRefreshToken (this : t) (now : Z) (userId : string)
    : completion string :=
  jwt_sign (<["userId" := JStr userId]> ∅) (_refreshSecret this) (_refreshExpiry this) now.

(** [jwt.verify(token, secret)]: no options, so no clock tolerance. *)
Definition verifyAccessToken (this : t) (now : Z) (token : string) : completion object :=
  jwt_verify token (_accessSecret this) 0 now.

Definition verifyRefreshToken (this : t) (now : Z) (token : string) : completion object :=
  jwt_verify token (_refreshSecret this) 0 now.

Definition generate (this : t) (k : TokenKind) : Z -> string -> completion string :=
  match k with
  | AccessToken => generateAccessToken this
  | RefreshToken => generateRefreshToken this
  end.

Definition verify (this : t) (k : TokenKind) : Z -> string -> completion object :=
  match k with
  | AccessToken => verifyAccessToken this
  | RefreshToken => verifyRefreshToken this
  end.

End JwtService.
End JwtService.

(** ** redis client

    The [redis] package and the server behind it, as far as [RedisService]
    uses them: [SETEX], [GET] and [DEL] on a keyspace whose entries carry the
    time at which they expire.  A command is a promise: it resolves with the
    server's reply, it rejects (connection closed, protocol error, an error
    reply of the server), or it is never answered: the client is created with
    its default options, so while the server cannot be reached a command waits
    in the client's queue, without a time limit.  [faults] scripts the
    commands to come: [None] lets the next command through to the keyspace,
    [Some (Rejects reason)] makes it reject and [Some NoAnswer] leaves it
    unanswered, neither reaching the keyspace. *)
Inductive reply (A : Type) : Type :=
| Resolved (a : A)
| Rejected (reason : string)
| Unanswered.
Arguments Resolved {A} a.
Arguments Rejected {A} reason.
Arguments Unanswered {A}.

Inductive fault : Type :=
| Rejects (reason : string)
| NoAnswer.

Module Redis.

Record t : Type := {
  keyspace : gmap string (string * Z);
  faults : list (option fault);
}.

(** The next command's fate, and the client once it is consumed. *)
Definition next_fault (c : t) : option fault * t :=
  match faults c with
  | [] => (None, c)
  | f :: fs => (f, {| keyspace := keyspace c; faults := fs |})
  end.

(** What the server holds under [key] at time [now]: an entry is gone once
    its expiry time is reached. *)
Definition lookup (c : t) (now : Z) (key : string) : option string :=
  match keyspace c !! key with
  | Some (value, expireAt) => if decide (now < expireAt) then Some value else None
  | None => None
  end.

(** The largest 64-bit integer: the server keeps expiry times in milliseconds
    in such an integer. *)
Definition LLONG_MAX : Z := 9223372036854775807.

(** The times to live, in seconds, that the server takes at time [now]: the
    positive ones whose expiry time in milliseconds still fits.  The clock
    counts whole seconds here, so the server's time in milliseconds is
    [now * 1000]. *)
Definition valid_expire (now seconds : Z) : Prop :=
  0 < seconds /\ seconds <= LLONG_MAX / 1000 /\
  now * 1000 + seconds * 1000 <= LLONG_MAX.

Global Instance valid_expire_dec (now seconds : Z) : Decision (valid_expire now seconds).
Proof. unfold valid_expire. apply _. Defined.

(** [SETEX key seconds value]; the client sends the number as text, and the
    server refuses a time to live that is not a whole number within 64 bits,
    or not one of the times it takes. *)
Definition setEx (c : t) (now : Z) (key : string) (seconds : number) (value : string)
    : reply string * t :=
  match next_fault c with
  | (Some (Rejects reason), c) => (Rejected reason, c)
  | (Some NoAnswer, c) => (Unanswered, c)
  | (None, c) =>
      match seconds with
      | Whole seconds =>
          if decide (valid_expire now seconds)
          then (Resolved "OK",
                {| keyspace := <[key := (value, now + seconds)]> (keyspace c);
                   faults := faults c |})
          else if decide (- LLONG_MAX - 1 <= seconds <= LLONG_MAX)
          then (Rejected "ERR invalid expire time in 'setex' command", c)
          else (Rejected "ERR value is not an integer or out of range", c)
      | NotWhole => (Rejected "ERR value is not an integer or out of range", c)
      end
  end.

(** [GET key]: the value, or [null]. *)
Definition get (c : t) (now : Z) (key : string) : reply (option string) * t :=
  match next_fault c with
  | (Some (Rejects reason), c) => (Rejected reason, c)
  | (Some NoAnswer, c) => (Unanswered, c)
  | (None, c) => (Resolved (lookup c now key), c)
  end.

(** [DEL key]: the number of keys removed. *)
Definition del (c : t) (now : Z) (key : string) : reply Z * t :=
  match next_fault c with
  | (Some (Rejects reason), c) => (Rejected reason, c)
  | (Some NoAnswer, c) => (Unanswered, c)
  | (None, c) =>
      (Resolved (match lookup c now key with Some _ => 1 | None => 0 end),
       {| keyspace := delete key (keyspace c); faults := faults c |})
  end.


End Redis.

(** ** redis.service.ts

    Each method awaits one command of the client inside [try]/[catch]: it
    returns when the command resolves, throws its own [Error] when the command
    rejects, and stays pending while the command is not answered. *)
Module RedisService.

Record t : Type := { _client : Redis.t }.

(** The constructor creates the client with the url and no other option, and
    starts connecting; a failure to connect is logged to the console and not
    thrown, so construction always yields a service.  [server] is the keyspace
    (and the faults) the client will meet. *)
Definition new (server : Redis.t) : t := {| _client := server |}.

(** The service over a keyspace, with no fault to come. *)
Definition healthy (keyspace : gmap string (string * Z)) : t :=
  {| _client := {| Redis.keyspace := keyspace; Redis.faults := [] |} |}.

Definition set (this : t) (now : Z) (key value : string) (expirySeconds : number)
    : awaited unit * t :=
  match Redis.setEx (_client this) now key expirySeconds value with
  | (Resolved _, c) => (Settled (Return tt), {| _client := c |})
  | (Rejected _, c) => (Settled (Throw (Error "Redis set failed")), {| _client := c |})
  | (Unanswered, c) => (Pending, {| _client := c |})
  end.

Definition get (this : t) (now : Z) (key : string) : awaited (option string) * t :=
  match Redis.get (_client this) now key with
  | (Resolved v, c) => (Settled (Return v), {| _client := c |})
  | (Rejected _, c) => (Settled (Throw (Error "Redis get failed")), {| _client := c |})
  | (Unanswered, c) => (Pending, {| _client := c |})
  end.

Definition del (this : t) (now : Z) (key : string) : awaited unit * t :=
  match Redis.del (_client this) now key with
  | (Resolved _, c) => (Settled (Return tt), {| _client := c |})
  | (Rejected _, c) => (Settled (Throw (Error "Redis delete failed")), {| _client := c |})
  | (Unanswered, c) => (Pending, {| _client := c |})
  end.

(** The errors by which the service reports that the store could not be
    used: the specification's [StoreUnavailable]. *)
Definition StoreUnavailable (e : exn) : Prop :=
  e = Error "Redis set failed" \/ e = Error "Redis get failed" \/
  e = Error "Redis delete failed".

End RedisService.

(** ** The session layer

    The specification places a [SessionManager] and a [RevocationIndex] on top
    of the token signer and the store.  Neither is among the sources; what the
    claims need of them ([login], [logout], [verifyAccess] and the index) is
    written here from the specification (sections 3, 4, 5, 6 and 7), over
    [RedisService] as the store and, for the verification of a token, over
    [JwtService]. *)
Module Session.

(** Modelled from the spec: the error kinds of section 7. *)
Inductive SessionError : Type :=
| TokenMalformed
| TokenSignatureInvalid
| TokenExpired
| SessionNotFound
| SessionRevoked
| StoreUnavailable.

(** Modelled from the spec: each operation returns a result or one of the
    error kinds (sections 6 and 7). *)
Inductive result (A : Type) : Type :=
| Ok (a : A)
| Err (e : SessionError).
Arguments Ok {A} a.
Arguments Err {A} e.

(** Modelled from the spec: the configuration of section 6, the durations in
    seconds. *)
Record Config : Type := {
  accessSecret : string;
  refreshSecret : string;
  accessExpiry : Z;
  refreshExpiry : Z;
}.

(** Modelled from the spec: the payload claims [{sub, sid?, iat, exp}] of
    section 6. *)
Record claims : Type := {
  sub : string;
  sid : option string;
  iat : Z;
  exp : Z;
}.





Definition revoked_key (subjectId : string) : string := "revoked:" +:+ subjectId.

(** Modelled from the spec: a subject is in the revocation index while the
    store holds [revoked:{subjectId}]. *)
Definition revoked (st : RedisService.t) (now : Z) (subjectId : string) : Prop :=
  Redis.lookup (RedisService._client st) now (revoked_key subjectId) <> None.


(** Modelled from the spec: two stores that meet the same faults and hold the
    same revocation entries at [now]; their session records may differ. *)
Definition same_revocations (now : Z) (st st' : RedisService.t) : Prop :=
  Redis.faults (RedisService._client st') = Redis.faults (RedisService._client st) /\
  forall subjectId,
    Redis.lookup (RedisService._client st') now (revoked_key subjectId) =
    Redis.lookup (RedisService._client st) now (revoked_key subjectId).

(** Modelled from the spec: every operation of the manager returns a result
    or one of the error kinds (sections 6 and 7); it runs against the store. *)
Definition M (A : Type) : Type := RedisService.t -> result A * RedisService.t.

Definition ret {A} (a : A) : M A := fun st => (Ok a, st).
Definition fail {A} (e : SessionError) : M A := fun st => (Err e, st).
Definition bind {A B} (m : M A) (k : A -> M B) : M B :=
  fun st =>
    match m st with
    | (Ok a, st') => k a st'
    | (Err e, st') => (Err e, st')
    end.

(** Modelled from the spec: a failure of a store call surfaces as
    [StoreUnavailable] and is never swallowed (sections 4.2 and 7); the
    manager puts a time limit on every store call, and a call that has not
    settled by then counts as [StoreUnavailable] as well (section 5). *)
Definition store {A} (call : RedisService.t -> awaited A * RedisService.t) : M A :=
  fun st =>
    match call st with
    | (Settled (Return a), st') => (Ok a, st')
    | (Settled (Throw _), st') => (Err StoreUnavailable, st')
    | (Pending, st') => (Err StoreUnavailable, st')
    end.

Declare Scope session_scope.
Delimit Scope session_scope with session.
Notation "x <- m ;; k" := (bind m (fun x => k))
  (at level 100, m at next level, right associativity) : session_scope.
Notation "m ;;; k" := (bind m (fun _ => k))
  (at level 100, right associativity) : session_scope.

Section SessionLayer.
Context {prims : Primitives}.
Variable cfg : Config.

Local Open Scope session_scope.







(** Modelled from the spec: [RevocationIndex.contains(subjectId)], a lookup
    of the key [revoked:{subjectId}]. *)
Definition revocation_contains (now : Z) (subjectId : string) : M bool :=
  v <- store (fun st => RedisService.get st now (revoked_key subjectId)) ;;
  ret (match v with Some _ => true | None => false end).




End SessionLayer.

Section VerifyAccess.
Context {prims : Primitives}.

Local Open Scope session_scope.

(** Modelled from the spec: the error kind under which the manager reports
    what the verification of a token throws (sections 4.1 and 7):
    [TokenExpired] when the token has expired, [TokenSignatureInvalid] when
    the signature does not match, and [TokenMalformed] for every other
    refusal. *)
Definition token_error (e : exn) : SessionError :=
  match e with
  | TokenExpiredError _ _ => TokenExpired
  | JsonWebTokenError message =>
      if decide (message = "invalid signature") then TokenSignatureInvalid
      else TokenMalformed
  | NotBeforeError _ | Error _ => TokenMalformed
  end.

(** Modelled from the spec: the subject of verified claims: the claim [sub]
    of section 6, which the tokens of [JwtService] carry under the name
    [userId]. *)
Definition subject (claims : object) : option string :=
  match claims !! "sub" with
  | Some (JStr u) => Some u
  | _ =>
      match claims !! "userId" with
      | Some (JStr u) => Some u
      | _ => None
      end
  end.

(** Modelled from the spec: the session of verified claims, when they carry
    the claim [sid] of section 6. *)
Definition session_of (claims : object) : option string :=
  match claims !! "sid" with
  | Some (JStr sessionId) => Some sessionId
  | _ => None
  end.

(** Modelled from the spec: [verifyAccess(accessToken)] has the token's
    signature and expiry verified, here by [JwtService.verifyAccessToken],
    then looks the token's subject (and its [sid], when it has one) up in the
    revocation index (section 4.3).  Claims without a subject are
    [TokenMalformed]. *)
Definition verifyAccess (jwt : JwtService.t) (now : Z) (token : string) : M string :=
  match JwtService.verifyAccessToken jwt now token with
  | Throw e => fail (token_error e)
  | Return claims =>
      match subject claims with
      | None => fail TokenMalformed
      | Some u =>
          revokedSub <- revocation_contains now u ;;
          if (revokedSub : bool) then fail SessionRevoked
          else
            match session_of claims with
            | Some sessionId =>
                revokedSid <- revocation_contains now sessionId ;;
                if (revokedSid : bool) then fail SessionRevoked else ret u
            | None => ret u
            end
      end
  end.

End VerifyAccess.
End Session.

(** ** A reference instance of the primitives

    A small executable instance of [Primitives], used to run the definitions
    on concrete inputs: objects are written as a [j] and the binary digits of
    their [Countable] code, base64url is replaced by hexadecimal (which stays inside
    the base64url alphabet), and the MAC is the tagged hexadecimal text of
    algorithm, key and message. *)
Module Reference.

Fixpoint pos_bits (p : positive) : string :=
  match p with
  | xH => EmptyString
  | xO q => String "0" (pos_bits q)
  | xI q => String "1" (pos_bits q)
  end.

Fixpoint bits_pos (s : string) : option positive :=
  match s with
  | EmptyString => Some xH
  | String c r =>
      if Ascii.eqb c "0" then xO <$> bits_pos r
      else if Ascii.eqb c "1" then xI <$> bits_pos r
      else None
  end.

Definition text_of {A} `{Countable A} (a : A) : string :=
  String "j" (pos_bits (encode a)).

Definition of_text {A} `{Countable A} (s : string) : option A :=
  match s with
  | String "j" bits =>
      match bits_pos bits with
      | Some p => decode p
      | None => None
      end
  | _ => None
  end.

Definition nibble : Type := bool * bool * bool * bool.

Definition nibble_char (n : nibble) : ascii :=
  match n with
  | (false, false, false, false) => "0" | (true, false, false, false) => "1"
  | (false, true, false, false) => "2" | (true, true, false, false) => "3"
  | (false, false, true, false) => "4" | (true, false, true, false) => "5"
  | (false, true, true, false) => "6" | (true, true, true, false) => "7"
  | (false, false, false, true) => "8" | (true, false, false, true) => "9"
  | (false, true, false, true) => "a" | (true, true, false, true) => "b"
  | (false, false, true, true) => "c" | (true, false, true, true) => "d"
  | (false, true, true, true) => "e" | (true, true, true, true) => "f"
  end%char.

Definition char_nibble (c : ascii) : option nibble :=
  match c with
  | "0" => Some (false, false, false, false) | "1" => Some (true, false, false, false)
  | "2" => Some (false, true, false, false) | "3" => Some (true, true, false, false)
  | "4" => Some (false, false, true, false) | "5" => Some (true, false, true, false)
  | "6" => Some (false, true, true, false) | "7" => Some (true, true, true, false)
  | "8" => Some (false, false, false, true) | "9" => Some (true, false, false, true)
  | "a" => Some (false, true, false, true) | "b" => Some (true, true, false, true)
  | "c" => Some (false, false, true, true) | "d" => Some (true, false, true, true)
  | "e" => Some (false, true, true, true) | "f" => Some (true, true, true, true)
  | _ => None
  end%char.

(** Two hexadecimal digits per character, the high one first. *)
Fixpoint hex (s : string) : string :=
  match s with
  | EmptyString => EmptyString
  | String (Ascii b0 b1 b2 b3 b4 b5 b6 b7) r =>
      String (nibble_char (b4, b5, b6, b7)) (String (nibble_char (b0, b1, b2, b3)) (hex r))
  end.

Fixpoint unhex (s : string) : option string :=
  match s with
  | EmptyString => Some EmptyString
  | String h (String l r) =>
      match char_nibble h, char_nibble l, unhex r with
      | Some (b4, b5, b6, b7), Some (b0, b1, b2, b3), Some r' =>
          Some (String (Ascii b0 b1 b2 b3 b4 b5 b6 b7) r')
      | _, _, _ => None
      end
  | String _ EmptyString => None
  end.

Definition mac (alg k m : string) : string :=
  String "m" (hex alg +:+ "-" +:+ hex k +:+ "-" +:+ hex m).

Definition durations (time : string) : option Z :=
  if decide (time = "15m") then Some 900000
  else if decide (time = "1h") then Some 3600000
  else if decide (time = "7d") then Some 604800000
  else None.

Lemma bits_pos_bits (p : positive) : bits_pos (pos_bits p) = Some p.
Proof. induction p as [p IH|p IH|]; simpl; [by rewrite IH..|done]. Qed.

Lemma of_text_text {A} `{Countable A} (a : A) : of_text (text_of a) = Some a.
Proof. unfold of_text, text_of. by rewrite bits_pos_bits, decode_encode. Qed.

Lemma text_of_nonempty {A} `{Countable A} (a : A) : text_of a <> EmptyString.
Proof. discriminate. Qed.

Lemma hex_nonempty (s : string) : s <> EmptyString -> hex s <> EmptyString.
Proof. by destruct s as [|[? ? ? ? ? ? ? ?] s]. Qed.

Lemma char_nibble_char (n : nibble) : char_nibble (nibble_char n) = Some n.
Proof. by destruct n as [[[[] []] []] []]. Qed.

Lemma nibble_char_alphabet (n : nibble) : is_base64url_char (nibble_char n) = true.
Proof. by destruct n as [[[[] []] []] []]. Qed.

Lemma unhex_hex (s : string) : unhex (hex s) = Some s.
Proof.
  induction s as [|[b0 b1 b2 b3 b4 b5 b6 b7] s IH]; [done|].
  cbn [hex unhex]. by rewrite !char_nibble_char, IH.
Qed.

Lemma hex_alphabet (s : string) : string_forallb is_base64url_char (hex s) = true.
Proof.
  induction s as [|[b0 b1 b2 b3 b4 b5 b6 b7] s IH]; [done|].
  cbn [hex string_forallb]. by rewrite !nibble_char_alphabet, IH.
Qed.

Lemma string_forallb_append (p : ascii -> bool) (a b : string) :
  string_forallb p (a +:+ b) = string_forallb p a && string_forallb p b.
Proof.
  induction a as [|c a IH]; [done|].
  change (String c a +:+ b) with (String c (a +:+ b)).
  cbn [string_forallb]. by rewrite IH, andb_assoc.
Qed.

Lemma mac_alphabet (alg k m : string) :
  string_forallb is_base64url_char (mac alg k m) = true.
Proof.
  unfold mac. cbn [string_forallb].
  rewrite !string_forallb_append, !hex_alphabet. done.
Qed.

Lemma mac_nonempty (alg k m : string) : mac alg k m <> EmptyString.
Proof. discriminate. Qed.

Definition primitives : Primitives := {|
  JSON_stringify := text_of;
  JSON_parse := of_text;
  base64url := hex;
  base64url_decode := unhex;
  jwa_sign := mac;
  ms := durations;
  JSON_parse_stringify := of_text_text;
  JSON_stringify_nonempty := text_of_nonempty;
  base64url_decode_encode := unhex_hex;
  base64url_alphabet := hex_alphabet;
  base64url_nonempty := hex_nonempty;
  jwa_sign_alphabet := mac_alphabet;
  jwa_sign_nonempty := mac_nonempty;
  digest := hex;
|}.

End Reference.

(** ** A concrete configuration

    The environment and the services that the examples below run on, over the
    reference primitives. *)
Module Example.

Definition env : Env := {|
  ACCESS_TOKEN_SECRET := "access-secret";
  REFRESH_TOKEN_SECRET := "refresh-secret";
  ACCESS_TOKEN_EXPIRY := "15m";
  REFRESH_TOKEN_EXPIRY := "7d";
|}.

Definition jwtService : JwtService.t := JwtService.new env.

(** The same deployment with one secret for both kinds of token. *)
Definition sharedSecretService : JwtService.t :=
  JwtService.new {|
    ACCESS_TOKEN_SECRET := "one-secret";
    REFRESH_TOKEN_SECRET := "one-secret";
    ACCESS_TOKEN_EXPIRY := "15m";
    REFRESH_TOKEN_EXPIRY := "7d";
  |}.

(** A server with nothing stored and no fault to come. *)
Definition emptyServer : Redis.t := {| Redis.keyspace := ∅; Redis.faults := [] |}.

Definition redisService : RedisService.t := RedisService.new emptyServer.

(** A server whose next command is lost. *)
Definition brokenService : RedisService.t :=
  RedisService.new {| Redis.keyspace := ∅; Redis.faults := [Some (Rejects "ECONNRESET")] |}.

(** A server that cannot be reached: the next command gets no answer. *)
Definition unreachableService : RedisService.t :=
  RedisService.new {| Redis.keyspace := ∅; Redis.faults := [Some NoAnswer] |}.

(** A store in which the user [u1] is in the revocation index. *)
Definition revokedStore : RedisService.t :=
  RedisService.healthy (<[Session.revoked_key "u1" := ("{}", 900)]> ∅).

Definition config : Session.Config := {|
  Session.accessSecret := "access-secret";
  Session.refreshSecret := "refresh-secret";
  Session.accessExpiry := 900;
  Session.refreshExpiry := 604800;
|}.

End Example.

(** ** A configuration with a lifetime under one second

    The [ms] package reads [500ms] as 500 milliseconds; the access tokens of
    this deployment are to live that long. *)
Module ShortLived.

Definition durations (time : string) : option Z :=
  if decide (time = "500ms") then Some 500 else Reference.durations time.

Definition primitives : Primitives := {|
  JSON_stringify := Reference.text_of;
  JSON_parse := Reference.of_text;
  base64url := Reference.hex;
  base64url_decode := Reference.unhex;
  jwa_sign := Reference.mac;
  ms := durations;
  JSON_parse_stringify := Reference.of_text_text;
  JSON_stringify_nonempty := Reference.text_of_nonempty;
  base64url_decode_encode := Reference.unhex_hex;
  base64url_alphabet := Reference.hex_alphabet;
  base64url_nonempty := Reference.hex_nonempty;
  jwa_sign_alphabet := Reference.mac_alphabet;
  jwa_sign_nonempty := Reference.mac_nonempty;
  digest := Reference.hex;
|}.

Definition env : Env := {|
  ACCESS_TOKEN_SECRET := "access-secret";
  REFRESH_TOKEN_SECRET := "refresh-secret";
  ACCESS_TOKEN_EXPIRY := "500ms";
  REFRESH_TOKEN_EXPIRY := "7d";
|}.

Definition jwtService : JwtService.t := JwtService.new env.

End ShortLived.

(** ** The bulk upload of images ([BulkUploadImagesUseCase])

    [execute] checks the five arrays of the request, asks the repository for
    the highest order, uploads the files one after the other, and stores all
    records with one [addMany].  The repository, the Cloudinary service,
    [Types.ObjectId], [getErrorMessage] and the constants of [ErrorMsg] and
    [HttpResCode] are not among the sources: they are the fields of
    [Environment], and nothing is assumed about them.  A call on the repository
    or on Cloudinary may answer by what was called before, so each takes the
    calls made so far.  The highest order is a whole number; the order of a
    record is the sum that JavaScript computes, in doubles (the factor
    [(i + 1) * 1000] is exact for every index of an array). *)
Module BulkUploadImages.

(** What is thrown: a [CustomError] with its message and status code, or
    anything else. *)
Inductive thrown : Type :=
| CustomError (message : string) (statusCode : Z)
| OtherError (e : exn).

Inductive promise (A : Type) : Type :=
| Fulfilled (a : A)
| Failed (e : thrown).
Arguments Fulfilled {A} a.
Arguments Failed {A} e.

(** An uploaded file; [execute] reads its [path] only. *)
Record File : Type := { path : string }.

Module BulkUploadDTO.
Record t : Type := {
  userId : string;
  files : list File;
  titles : list string;
  originalFileNames : list string;
  mimeTypes : list string;
  fileSizes : list Z;
}.
End BulkUploadDTO.

(** The record that [execute] builds for a file. *)
Module Image.
Record t : Type := {
  userId : string;
  title : string;
  originalFileName : string;
  mimeType : string;
  fileSize : Z;
  url : string;
  order : number;
}.
End Image.

Inductive Call : Type :=
| FindMaxOrder (userId : string)
| UploadImage (path : string)
| AddMany (images : list Image.t).

Record Environment : Type := {
  findMaxOrder : list Call -> string -> promise Z;
  uploadImage : list Call -> string -> promise string;
  addMany : list Call -> list Image.t -> promise unit;
  ObjectId : string -> promise string;
  getErrorMessage : thrown -> string;
  INVALID_FILE_ARRAY : string;
  UPLOAD_FAILED : string;
  BAD_REQUEST : Z;
  INTERNAL_SERVER_ERROR : Z;
}.

Section Execute.
Variable env : Environment.
Variable dto : BulkUploadDTO.t.

(** The body of the [for] loop at index [i], for the files from [i] on;
    [titles[i]] and the like are defined, since the arrays are as long as
    [files] when the loop is reached. *)
Fixpoint upload_each (highestOrder : Z) (remaining : list File) (i : nat)
    (formatted : list Image.t) (calls : list Call) : promise (list Image.t) * list Call :=
  match remaining with
  | [] => (Fulfilled formatted, calls)
  | file :: remaining =>
      let title := default "" (BulkUploadDTO.titles dto !! i) in
      let originalFileName := default "" (BulkUploadDTO.originalFileNames dto !! i) in
      let mimeType := default "" (BulkUploadDTO.mimeTypes dto !! i) in
      let fileSize := default 0 (BulkUploadDTO.fileSizes dto !! i) in
      match uploadImage env calls (path file) with
      | Failed e => (Failed e, calls ++ [UploadImage (path file)])
      | Fulfilled url =>
          let calls := calls ++ [UploadImage (path file)] in
          match ObjectId env (BulkUploadDTO.userId dto) with
          | Failed e => (Failed e, calls)
          | Fulfilled oid =>
              upload_each highestOrder remaining (S i)
                (formatted ++
                 [{| Image.userId := oid; Image.title := title;
                     Image.originalFileName := originalFileName;
                     Image.mimeType := mimeType; Image.fileSize := fileSize;
                     Image.url := url;
                     Image.order :=
                       number_add highestOrder ((Z.of_nat i + 1) * 1000) |}])
                calls
          end
      end
  end.

(** The [try] block. *)
Definition upload_and_store (calls : list Call) : promise unit * list Call :=
  match findMaxOrder env calls (BulkUploadDTO.userId dto) with
  | Failed e => (Failed e, calls ++ [FindMaxOrder (BulkUploadDTO.userId dto)])
  | Fulfilled highestOrder =>
      match upload_each highestOrder (BulkUploadDTO.files dto) 0 []
              (calls ++ [FindMaxOrder (BulkUploadDTO.userId dto)]) with
      | (Failed e, calls) => (Failed e, calls)
      | (Fulfilled formatted, calls) =>
          match addMany env calls formatted with
          | Failed e => (Failed e, calls ++ [AddMany formatted])
          | Fulfilled _ => (Fulfilled tt, calls ++ [AddMany formatted])
          end
      end
  end.

(** The [catch] clause: a [CustomError] is thrown on as it is, anything else
    becomes a [CustomError] with the message of [getErrorMessage], or
    [UPLOAD_FAILED] where that is empty. *)
Definition rethrow (error : thrown) : thrown :=
  match error with
  | CustomError _ _ => error
  | OtherError _ =>
      CustomError
        (if decide (getErrorMessage env error = "") then UPLOAD_FAILED env
         else getErrorMessage env error)
        (INTERNAL_SERVER_ERROR env)
  end.

Definition execute (calls : list Call) : promise unit * list Call :=
  let files := BulkUploadDTO.files dto in
  if bool_decide (length files <> length (BulkUploadDTO.titles dto) \/
                  length files <> length (BulkUploadDTO.originalFileNames dto) \/
                  length files <> length (BulkUploadDTO.mimeTypes dto) \/
                  length files <> length (BulkUploadDTO.fileSizes dto))
  then (Failed (CustomError (INVALID_FILE_ARRAY env) (BAD_REQUEST env)), calls)
  else
    match upload_and_store calls with
    | (Failed error, calls) => (Failed (rethrow error), calls)
    | (Fulfilled _, calls) => (Fulfilled tt, calls)
    end.

End Execute.

(** An environment in which every call succeeds, the highest order so far
    being 3000, and one in which Cloudinary refuses the file [b.png]. *)
Definition exampleEnvironment : Environment := {|
  findMaxOrder := fun _ _ => Fulfilled 3000;
  uploadImage := fun _ path => Fulfilled ("https://cdn/" +:+ path);
  addMany := fun _ _ => Fulfilled tt;
  ObjectId := fun userId => Fulfilled userId;
  getErrorMessage :=
    fun error => match error with
                 | CustomError message _ => message
                 | OtherError (Error message) => message
                 | OtherError _ => ""
                 end;
  INVALID_FILE_ARRAY := "Invalid file array";
  UPLOAD_FAILED := "Upload failed";
  BAD_REQUEST := 400;
  INTERNAL_SERVER_ERROR := 500;
|}.

Definition failingEnvironment : Environment := {|
  findMaxOrder := fun _ _ => Fulfilled 3000;
  uploadImage :=
    fun _ path => if decide (path = "b.png") then Failed (OtherError (Error ""))
                  else Fulfilled ("https://cdn/" +:+ path);
  addMany := fun _ _ => Fulfilled tt;
  ObjectId := fun userId => Fulfilled userId;
  getErrorMessage :=
    fun error => match error with
                 | CustomError message _ => message
                 | OtherError (Error message) => message
                 | OtherError _ => ""
                 end;
  INVALID_FILE_ARRAY := "Invalid file array";
  UPLOAD_FAILED := "Upload failed";
  BAD_REQUEST := 400;
  INTERNAL_SERVER_ERROR := 500;
|}.

(** Two files with their titles, names, types and sizes; and the same request
    with one title missing. *)
Definition exampleDTO : BulkUploadDTO.t := {|
  BulkUploadDTO.userId := "64b7f0c2a1d4e5f6a7b8c9d0";
  BulkUploadDTO.files := [{| path := "a.png" |}; {| path := "b.png" |}];
  BulkUploadDTO.titles := ["A"; "B"];
  BulkUploadDTO.originalFileNames := ["a-original.png"; "b-original.png"];
  BulkUploadDTO.mimeTypes := ["image/png"; "image/png"];
  BulkUploadDTO.fileSizes := [10; 20];
|}.

Definition mismatchedDTO : BulkUploadDTO.t := {|
  BulkUploadDTO.userId := "64b7f0c2a1d4e5f6a7b8c9d0";
  BulkUploadDTO.files := [{| path := "a.png" |}; {| path := "b.png" |}];
  BulkUploadDTO.titles := ["A"];
  BulkUploadDTO.originalFileNames := ["a-original.png"; "b-original.png"];
  BulkUploadDTO.mimeTypes := ["image/png"; "image/png"];
  BulkUploadDTO.fileSizes := [10; 20];
|}.

End BulkUploadImages.

(** ** The Axios instance and the token in localStorage ([lib/axios])

    The interceptors of the Axios instance and the helpers that keep the
    authentication token under [TOKEN_KEY].  [Window] is the part of the
    browser that they read and write; the calls on [localStorage] do not
    throw here (the thunks of the authentication slice, which catch what such
    a call throws, are given a script of the calls that do). *)
Module Axios.

Definition TOKEN_KEY : string := "skillforge_auth_token".

Inductive ConsoleCall : Type :=
| console_warn (arguments : list string)
| console_error (arguments : list string).

Record Window : Type := {
  localStorage : gmap string string;
  (** [window.location.pathname] *)
  pathname : string;
  (** what has been assigned to [window.location.href], if anything *)
  href : option string;
  console : list ConsoleCall;
}.

(** [localStorage.getItem] answers [null] for a key that is not there; [null]
    and the empty string are the values that count as false. *)
Definition truthy (value : option string) : bool :=
  match value with
  | Some (String _ _) => true
  | _ => false
  end.

Fixpoint startsWith (search text : string) : bool :=
  match search, text with
  | EmptyString, _ => true
  | String a search, String b text => bool_decide (a = b) && startsWith search text
  | String _ _, EmptyString => false
  end.

(** [text.includes(search)] *)
Fixpoint includes (search text : string) : bool :=
  startsWith search text ||
  match text with
  | EmptyString => false
  | String _ text => includes search text
  end.

Definition log (call : ConsoleCall) (w : Window) : Window :=
  {| localStorage := localStorage w; pathname := pathname w; href := href w;
     console := console w ++ [call] |}.

Definition setItem (key value : string) (w : Window) : Window :=
  {| localStorage := <[key := value]> (localStorage w); pathname := pathname w;
     href := href w; console := console w |}.

Definition removeItem (key : string) (w : Window) : Window :=
  {| localStorage := delete key (localStorage w); pathname := pathname w;
     href := href w; console := console w |}.

Definition getItem (key : string) (w : Window) : option string := localStorage w !! key.

Definition assign_href (target : string) (w : Window) : Window :=
  {| localStorage := localStorage w; pathname := pathname w; href := Some target;
     console := console w |}.

Record InternalAxiosRequestConfig : Type := {
  url : string;
  method : string;
  headers : option (gmap string string);
  data : option string;
}.

Module ApiError.
Record t : Type := { message : string; statusCode : Z; code : option string }.
End ApiError.

Module AxiosResponse.
Record t : Type := { status : Z; data : option ApiError.t }.
End AxiosResponse.

Module AxiosError.
Record t : Type := {
  message : string;
  response : option AxiosResponse.t;
  (** whether [error.request] is there *)
  request : bool;
}.
End AxiosError.

Definition requestInterceptor (w : Window) (config : InternalAxiosRequestConfig)
    : InternalAxiosRequestConfig :=
  let token := getItem TOKEN_KEY w in
  match truthy token, headers config with
  | true, Some hs =>
      {| url := url config; method := method config;
         headers := Some (<["Authorization" := "Bearer " +:+ default "" token]> hs);
         data := data config |}
  | _, _ => config
  end.

(** The handlers of failures answer with [Promise.reject(error)]: the first
    component is the reason of the rejection. *)
Definition requestErrorHandler (w : Window) (error : AxiosError.t)
    : AxiosError.t * Window :=
  (error, log (console_error ["[Axios Request Error]:"; AxiosError.message error]) w).

Definition responseSuccessHandler (response : AxiosResponse.t) : AxiosResponse.t :=
  response.

Definition responseErrorHandler (w : Window) (error : AxiosError.t)
    : AxiosError.t * Window :=
  match AxiosError.response error with
  | Some response =>
      let status := AxiosResponse.status response in
      let w :=
        if decide (status = 401)
        then
          let w :=
            log (console_warn ["[Auth] Token expired or invalid. Redirecting to login."]) w in
          let w := removeItem TOKEN_KEY w in
          if negb (includes "/login" (pathname w)) then assign_href "/login" w else w
        else w in
      let message :=
        match AxiosResponse.data response with
        | Some data =>
            if decide (ApiError.message data = "") then AxiosError.message error
            else ApiError.message data
        | None => AxiosError.message error
        end in
      (error, log (console_error ["[API Error " +:+ pretty status +:+ "]:"; message]) w)
  | None =>
      if AxiosError.request error
      then (error,
            log (console_error ["[Network Error]: No response received from server"]) w)
      else (error,
            log (console_error ["[Request Setup Error]:"; AxiosError.message error]) w)
  end.

Definition setAuthToken (token : string) (w : Window) : Window := setItem TOKEN_KEY token w.

Definition removeAuthToken (w : Window) : Window := removeItem TOKEN_KEY w.

Definition getAuthToken (w : Window) : option string := getItem TOKEN_KEY w.

Definition isAuthenticated (w : Window) : bool := truthy (getAuthToken w).

(** A browser on the dashboard, with nothing stored. *)
Definition exampleWindow : Window :=
  {| localStorage := ∅; pathname := "/dashboard"; href := None; console := [] |}.

Definition unauthorized : AxiosError.t := {|
  AxiosError.message := "Request failed with status code 401";
  AxiosError.response := Some {| AxiosResponse.status := 401; AxiosResponse.data := None |};
  AxiosError.request := true;
|}.

End Axios.

(** ** The authentication slice ([store/slices/authSlice.ts])

    The reducer of the slice and the three thunks.  The clock is passed to a
    thunk as [now], the milliseconds of [Date.now()], and [isoNow], the text
    of [new Date().toISOString()]. *)
Module AuthSlice.

Module User.
Record t : Type := {
  id : string;
  email : string;
  name : string;
  avatar : option string;
  createdAt : string;
}.
End User.

Module LoginCredentials.
Record t : Type := { email : string; password : string }.
End LoginCredentials.

Record AuthState : Type := {
  user : option User.t;
  isAuthenticated : bool;
  isLoading : bool;
  error : option string;
}.

Definition initialState : AuthState :=
  {| user := None; isAuthenticated := false; isLoading := false; error := None |}.

(** The actions that reach the reducer: the one of the slice, the three of
    each thunk, and the actions of other slices. *)
Inductive Action : Type :=
| clearAuthError
| loginUser_pending
| loginUser_fulfilled (payload : User.t)
| loginUser_rejected (payload : option string)
| logoutUser_pending
| logoutUser_fulfilled
| logoutUser_rejected
| checkSession_pending
| checkSession_fulfilled (payload : option User.t)
| checkSession_rejected (payload : option string)
| other_action (type : string).

Definition reducer (state : AuthState) (action : Action) : AuthState :=
  match action with
  | clearAuthError =>
      {| user := user state; isAuthenticated := isAuthenticated state;
         isLoading := isLoading state; error := None |}
  | loginUser_pending =>
      {| user := user state; isAuthenticated := isAuthenticated state;
         isLoading := true; error := None |}
  | loginUser_fulfilled payload =>
      {| user := Some payload; isAuthenticated := true;
         isLoading := false; error := error state |}
  | loginUser_rejected payload =>
      {| user := user state; isAuthenticated := isAuthenticated state;
         isLoading := false;
         error := Some (if Axios.truthy payload then default "" payload
                        else "Login failed") |}
  | logoutUser_fulfilled =>
      {| user := None; isAuthenticated := false;
         isLoading := isLoading state; error := error state |}
  | checkSession_pending =>
      {| user := user state; isAuthenticated := isAuthenticated state;
         isLoading := true; error := error state |}
  | checkSession_fulfilled payload =>
      match payload with
      | Some payload =>
          {| user := Some payload; isAuthenticated := true;
             isLoading := false; error := error state |}
      | None =>
          {| user := user state; isAuthenticated := isAuthenticated state;
             isLoading := false; error := error state |}
      end
  | checkSession_rejected _ =>
      {| user := None; isAuthenticated := false;
         isLoading := false; error := error state |}
  | logoutUser_pending | logoutUser_rejected | other_action _ => state
  end.

(** What the body of a thunk ends in: a value, [rejectWithValue], or an
    error that it throws. *)
Inductive Outcome (A : Type) : Type :=
| fulfill (value : A)
| rejectWithValue (value : string)
| throws (message : string).
Arguments fulfill {A} value.
Arguments rejectWithValue {A} value.
Arguments throws {A} message.

(** A call on [localStorage] can throw (the storage may be blocked, or full).
    [script] says so for the calls to come, one entry for each call:
    [Some message] makes the call throw an error with that message, [None]
    lets it through, as does a script that has run out. *)
Definition storage_call (script : list (option string))
    : option string * list (option string) :=
  match script with
  | [] => (None, [])
  | fate :: script => (fate, script)
  end.

(** What [setAuthToken] throws is an [Error], so the [catch] clause rejects
    with its message, as it does with the message of the error that the body
    throws for other credentials. *)
Definition loginUser (script : list (option string)) (credentials : LoginCredentials.t)
    (now : Z) (isoNow : string) (w : Axios.Window) : Outcome User.t * Axios.Window :=
  if bool_decide (LoginCredentials.email credentials = "demo@skillforge.ai") &&
     bool_decide (LoginCredentials.password credentials = "demo123")
  then
    let token := "mock-jwt-token-" +:+ pretty now in
    match storage_call script with
    | (None, _) =>
        (fulfill {| User.id := "user-1"; User.email := LoginCredentials.email credentials;
                    User.name := "Demo User"; User.avatar := None;
                    User.createdAt := isoNow |},
         Axios.setAuthToken token w)
    | (Some message, _) => (rejectWithValue message, w)
    end
  else (rejectWithValue "Invalid email or password", w).

Definition logoutUser (script : list (option string)) (w : Axios.Window)
    : Outcome unit * Axios.Window :=
  match storage_call script with
  | (None, _) => (fulfill tt, Axios.removeAuthToken w)
  | (Some message, _) => (throws message, w)
  end.

(** The [try] block reads the token; the [catch] clause, reached when that
    throws, removes the token and returns [null], unless the removal throws
    as well. *)
Definition checkSession (script : list (option string)) (isoNow : string)
    (w : Axios.Window) : Outcome (option User.t) * Axios.Window :=
  match storage_call script with
  | (None, _) =>
      let token := Axios.getItem "skillforge_auth_token" w in
      if negb (Axios.truthy token) then (fulfill None, w)
      else
        (fulfill (Some {| User.id := "user-1"; User.email := "demo@skillforge.ai";
                          User.name := "Demo User"; User.avatar := None;
                          User.createdAt := isoNow |}),
         w)
  | (Some _, script) =>
      match storage_call script with
      | (None, _) => (fulfill None, Axios.removeAuthToken w)
      | (Some message, _) => (throws message, w)
      end
  end.

(** [dispatch(thunk(argument))]: [createAsyncThunk] dispatches the [pending]
    action, runs the body, and dispatches [fulfilled] with the value of the
    body, or [rejected], with the value given to [rejectWithValue] or with no
    payload when the body has thrown; no other action comes in between. *)
Inductive Thunk : Type :=
| LoginUser (credentials : LoginCredentials.t)
| LogoutUser
| CheckSession.

Definition dispatchWith (script : list (option string)) (thunk : Thunk) (now : Z)
    (isoNow : string) (store : AuthState * Axios.Window) : AuthState * Axios.Window :=
  let (state, w) := store in
  match thunk with
  | LoginUser credentials =>
      let state := reducer state loginUser_pending in
      match loginUser script credentials now isoNow w with
      | (fulfill payload, w) => (reducer state (loginUser_fulfilled payload), w)
      | (rejectWithValue value, w) => (reducer state (loginUser_rejected (Some value)), w)
      | (throws _, w) => (reducer state (loginUser_rejected None), w)
      end
  | LogoutUser =>
      let state := reducer state logoutUser_pending in
      match logoutUser script w with
      | (fulfill _, w) => (reducer state logoutUser_fulfilled, w)
      | (rejectWithValue _, w) | (throws _, w) => (reducer state logoutUser_rejected, w)
      end
  | CheckSession =>
      let state := reducer state checkSession_pending in
      match checkSession script isoNow w with
      | (fulfill payload, w) => (reducer state (checkSession_fulfilled payload), w)
      | (rejectWithValue value, w) =>
          (reducer state (checkSession_rejected (Some value)), w)
      | (throws _, w) => (reducer state (checkSession_rejected None), w)
      end
  end.

(** A dispatch during which no call on [localStorage] throws. *)
Definition dispatch : Thunk -> Z -> string -> AuthState * Axios.Window ->
    AuthState * Axios.Window :=
  dispatchWith [].

Definition demoCredentials : LoginCredentials.t :=
  {| LoginCredentials.email := "demo@skillforge.ai";
     LoginCredentials.password := "demo123" |}.

Definition wrongCredentials : LoginCredentials.t :=
  {| LoginCredentials.email := "demo@skillforge.ai";
     LoginCredentials.password := "letmein" |}.

(** The state in which the demo user is signed in. *)
Definition signedInState : AuthState := {|
  user := Some {| User.id := "user-1"; User.email := "demo@skillforge.ai";
                  User.name := "Demo User"; User.avatar := None;
                  User.createdAt := "2024-01-01T00:00:00.000Z" |};
  isAuthenticated := true;
  isLoading := false;
  error := None;
|}.

End AuthSlice.

(** ** The roadmap slice ([store/slices/roadmapSlice.ts])

    The reducer of the slice.  [toggleStepComplete] reads the clock and
    computes a percentage in floating point: [isoNow] is the text of
    [new Date().toISOString()], and [percentage completed total] stands for
    [Math.round((completed / total) * 100)]; nothing is assumed about it. *)
Module RoadmapSlice.

Inductive ResourceType : Type := article | video | course | book | tutorial.

Inductive Difficulty : Type := beginner | intermediate | advanced.

Module Resource.
Record t : Type := { id : string; title : string; url : string; type : ResourceType }.
End Resource.

Module RoadmapStep.
Record t : Type := {
  id : string;
  title : string;
  description : string;
  duration : string;
  resources : list Resource.t;
  isCompleted : bool;
  order : Z;
}.
End RoadmapStep.

Module Roadmap.
Record t : Type := {
  id : string;
  title : string;
  description : string;
  skill : string;
  difficulty : Difficulty;
  estimatedDuration : string;
  steps : list RoadmapStep.t;
  createdAt : string;
  updatedAt : string;
  progress : Z;
}.
End Roadmap.

Record RoadmapState : Type := {
  isGenerating : bool;
  draftRoadmap : option Roadmap.t;
  savedRoadmaps : list Roadmap.t;
  selectedRoadmap : option Roadmap.t;
  error : option string;
  isLoading : bool;
}.

Definition initialState : RoadmapState := {|
  isGenerating := false;
  draftRoadmap := None;
  savedRoadmaps := [];
  selectedRoadmap := None;
  error := None;
  isLoading := false;
|}.

Inductive Action : Type :=
| clearDraft
| clearError
| selectRoadmap (payload : option Roadmap.t)
| toggleStepComplete (roadmapId stepId : string)
| generateRoadmap_pending
| generateRoadmap_fulfilled (payload : Roadmap.t)
| generateRoadmap_rejected (payload : option string)
| saveRoadmap_pending
| saveRoadmap_fulfilled (payload : Roadmap.t)
| saveRoadmap_rejected (payload : option string)
| fetchRoadmaps_pending
| fetchRoadmaps_fulfilled (payload : list Roadmap.t)
| fetchRoadmaps_rejected (payload : option string)
| other_action (type : string).

Section Reducer.
Variable percentage : nat -> nat -> Z.
Variable isoNow : string.

Definition toggle (step : RoadmapStep.t) : RoadmapStep.t := {|
  RoadmapStep.id := RoadmapStep.id step;
  RoadmapStep.title := RoadmapStep.title step;
  RoadmapStep.description := RoadmapStep.description step;
  RoadmapStep.duration := RoadmapStep.duration step;
  RoadmapStep.resources := RoadmapStep.resources step;
  RoadmapStep.isCompleted := negb (RoadmapStep.isCompleted step);
  RoadmapStep.order := RoadmapStep.order step;
|}.

(** [steps.find(s => s.id === stepId)] and the flip of what it finds; [None]
    when it finds nothing. *)
Fixpoint toggle_step (stepId : string) (steps : list RoadmapStep.t)
    : option (list RoadmapStep.t) :=
  match steps with
  | [] => None
  | step :: steps =>
      if decide (RoadmapStep.id step = stepId) then Some (toggle step :: steps)
      else cons step <$> toggle_step stepId steps
  end.

Definition completedSteps (steps : list RoadmapStep.t) : nat :=
  length (filter (fun step => RoadmapStep.isCompleted step = true) steps).

Definition toggle_in (stepId : string) (roadmap : Roadmap.t) : Roadmap.t :=
  match toggle_step stepId (Roadmap.steps roadmap) with
  | None => roadmap
  | Some steps => {|
      Roadmap.id := Roadmap.id roadmap;
      Roadmap.title := Roadmap.title roadmap;
      Roadmap.description := Roadmap.description roadmap;
      Roadmap.skill := Roadmap.skill roadmap;
      Roadmap.difficulty := Roadmap.difficulty roadmap;
      Roadmap.estimatedDuration := Roadmap.estimatedDuration roadmap;
      Roadmap.steps := steps;
      Roadmap.createdAt := Roadmap.createdAt roadmap;
      Roadmap.updatedAt := isoNow;
      Roadmap.progress := percentage (completedSteps steps) (length steps);
    |}
  end.

(** [savedRoadmaps.find(r => r.id === roadmapId)], changed where it is. *)
Fixpoint toggle_roadmap (roadmapId stepId : string) (roadmaps : list Roadmap.t)
    : list Roadmap.t :=
  match roadmaps with
  | [] => []
  | roadmap :: roadmaps =>
      if decide (Roadmap.id roadmap = roadmapId) then toggle_in stepId roadmap :: roadmaps
      else roadmap :: toggle_roadmap roadmapId stepId roadmaps
  end.

Definition message_or (payload : option string) (fallback : string) : option string :=
  Some (if Axios.truthy payload then default "" payload else fallback).

Definition reducer (state : RoadmapState) (action : Action) : RoadmapState :=
  match action with
  | clearDraft =>
      {| isGenerating := isGenerating state; draftRoadmap := None;
         savedRoadmaps := savedRoadmaps state; selectedRoadmap := selectedRoadmap state;
         error := error state; isLoading := isLoading state |}
  | clearError =>
      {| isGenerating := isGenerating state; draftRoadmap := draftRoadmap state;
         savedRoadmaps := savedRoadmaps state; selectedRoadmap := selectedRoadmap state;
         error := None; isLoading := isLoading state |}
  | selectRoadmap payload =>
      {| isGenerating := isGenerating state; draftRoadmap := draftRoadmap state;
         savedRoadmaps := savedRoadmaps state; selectedRoadmap := payload;
         error := error state; isLoading := isLoading state |}
  | toggleStepComplete roadmapId stepId =>
      {| isGenerating := isGenerating state; draftRoadmap := draftRoadmap state;
         savedRoadmaps := toggle_roadmap roadmapId stepId (savedRoadmaps state);
         selectedRoadmap := selectedRoadmap state;
         error := error state; isLoading := isLoading state |}
  | generateRoadmap_pending =>
      {| isGenerating := true; draftRoadmap := None;
         savedRoadmaps := savedRoadmaps state; selectedRoadmap := selectedRoadmap state;
         error := None; isLoading := isLoading state |}
  | generateRoadmap_fulfilled payload =>
      {| isGenerating := false; draftRoadmap := Some payload;
         savedRoadmaps := savedRoadmaps state; selectedRoadmap := selectedRoadmap state;
         error := error state; isLoading := isLoading state |}
  | generateRoadmap_rejected payload =>
      {| isGenerating := false; draftRoadmap := draftRoadmap state;
         savedRoadmaps := savedRoadmaps state; selectedRoadmap := selectedRoadmap state;
         error := message_or payload "Failed to generate roadmap";
         isLoading := isLoading state |}
  | saveRoadmap_pending =>
      {| isGenerating := isGenerating state; draftRoadmap := draftRoadmap state;
         savedRoadmaps := savedRoadmaps state; selectedRoadmap := selectedRoadmap state;
         error := None; isLoading := true |}
  | saveRoadmap_fulfilled payload =>
      {| isGenerating := isGenerating state; draftRoadmap := None;
         savedRoadmaps := payload :: savedRoadmaps state;
         selectedRoadmap := selectedRoadmap state;
         error := error state; isLoading := false |}
  | saveRoadmap_rejected payload =>
      {| isGenerating := isGenerating state; draftRoadmap := draftRoadmap state;
         savedRoadmaps := savedRoadmaps state; selectedRoadmap := selectedRoadmap state;
         error := message_or payload "Failed to save roadmap"; isLoading := false |}
  | fetchRoadmaps_pending =>
      {| isGenerating := isGenerating state; draftRoadmap := draftRoadmap state;
         savedRoadmaps := savedRoadmaps state; selectedRoadmap := selectedRoadmap state;
         error := None; isLoading := true |}
  | fetchRoadmaps_fulfilled payload =>
      {| isGenerating := isGenerating state; draftRoadmap := draftRoadmap state;
         savedRoadmaps := payload; selectedRoadmap := selectedRoadmap state;
         error := error state; isLoading := false |}
  | fetchRoadmaps_rejected payload =>
      {| isGenerating := isGenerating state; draftRoadmap := draftRoadmap state;
         savedRoadmaps := savedRoadmaps state; selectedRoadmap := selectedRoadmap state;
         error := message_or payload "Failed to fetch roadmaps"; isLoading := false |}
  | other_action _ => state
  end.

End Reducer.

(** A saved roadmap of three steps, two of them completed, stored with the
    progress 66. *)
Definition exampleStep (id : string) (order : Z) (isCompleted : bool) : RoadmapStep.t := {|
  RoadmapStep.id := id;
  RoadmapStep.title := "Step";
  RoadmapStep.description := "";
  RoadmapStep.duration := "2 weeks";
  RoadmapStep.resources := [];
  RoadmapStep.isCompleted := isCompleted;
  RoadmapStep.order := order;
|}.

Definition exampleRoadmap : Roadmap.t := {|
  Roadmap.id := "saved-1";
  Roadmap.title := "React Mastery Path";
  Roadmap.description := "";
  Roadmap.skill := "React";
  Roadmap.difficulty := intermediate;
  Roadmap.estimatedDuration := "96 hours over 12 weeks";
  Roadmap.steps := [exampleStep "1" 1 true; exampleStep "2" 2 true; exampleStep "3" 3 false];
  Roadmap.createdAt := "2024-01-01T00:00:00.000Z";
  Roadmap.updatedAt := "2024-01-08T00:00:00.000Z";
  Roadmap.progress := 66;
|}.

Definition exampleState : RoadmapState := {|
  isGenerating := false;
  draftRoadmap := None;
  savedRoadmaps := [exampleRoadmap];
  selectedRoadmap := Some exampleRoadmap;
  error := None;
  isLoading := false;
|}.

(** [Math.round((completed / total) * 100)] as JavaScript computes it, for
    [completed] of [total] steps and [total] positive: the quotient is
    rounded to a double, so is its product with 100, and [Math.round] takes
    the nearest whole number.  (23 of 40 steps come to 57: the product is the
    double just below 57.5.) *)
Definition progressOf (completed total : nat) : Z :=
  if decide (completed = 0%nat) then 0
  else
    let (m, e) := nearest_double (Z.of_nat completed) (Z.of_nat total) in
    let (N, D) := scaled (100 * m) 1 e in
    Math_round (nearest_double N D).

End RoadmapSlice.

(** * Properties *)

(** ** Strings *)

Lemma append_nil_l (s : string) : "" +:+ s = s.
Proof. reflexivity. Qed.

Lemma append_cons (c : ascii) (a b : string) : String c a +:+ b = String c (a +:+ b).
Proof. reflexivity. Qed.

Lemma append_assoc (a b c : string) : (a +:+ b) +:+ c = a +:+ (b +:+ c).
Proof.
  induction a as [|x a IH]; [reflexivity|].
  rewrite !append_cons. by rewrite IH.
Qed.

Lemma append_empty (a b : string) : a +:+ b = "" -> a = "" /\ b = "".
Proof. destruct a; [by rewrite append_nil_l|by rewrite append_cons]. Qed.

Lemma string_forallb_impl (p q : ascii -> bool) (s : string) :
  (forall c, p c = true -> q c = true) ->
  string_forallb p s = true -> string_forallb q s = true.
Proof.
  intros Hpq. induction s as [|c s IH]; simpl; [done|].
  rewrite !andb_true_iff. intros [Hc Hs]. auto.
Qed.

Lemma base64url_char_not_dot (c : ascii) : is_base64url_char c = true -> not_dot c = true.
Proof. destruct c as [[] [] [] [] [] [] [] []]; by vm_compute. Qed.

Lemma base64url_char_not_space (c : ascii) :
  is_base64url_char c = true -> Ascii.is_space c = false.
Proof. destruct c as [[] [] [] [] [] [] [] []]; by vm_compute. Qed.

Lemma split_no_sep (s : string) : string_forallb not_dot s = true -> split "." s = [s].
Proof.
  induction s as [|c s IH]; simpl; [done|].
  rewrite andb_true_iff. intros [Hc Hs]. unfold not_dot in Hc.
  apply negb_true_iff in Hc. rewrite Hc, (IH Hs). done.
Qed.

Lemma split_dot (b : string) : split "." (String "." b) = "" :: split "." b.
Proof. reflexivity. Qed.

Lemma split_append (a b : string) :
  string_forallb not_dot a = true ->
  split "." (a +:+ "." +:+ b) = a :: split "." b.
Proof.
  change ("." +:+ b) with (String "." b).
  induction a as [|c a IH].
  - intros _. rewrite append_nil_l. apply split_dot.
  - intros Hca. apply andb_true_iff in Hca as [Hc Ha].
    apply negb_true_iff in Hc. rewrite append_cons.
    change (split "." (String c (a +:+ String "." b)))
      with (if Ascii.eqb c "." then "" :: split "." (a +:+ String "." b)
            else match split "." (a +:+ String "." b) with
                 | seg :: segs => String c seg :: segs
                 | [] => [String c ""]
                 end).
    rewrite Hc, (IH Ha). done.
Qed.

Lemma split_three (a b c : string) :
  string_forallb not_dot a = true -> string_forallb not_dot b = true ->
  string_forallb not_dot c = true ->
  split "." ((a +:+ "." +:+ b) +:+ "." +:+ c) = [a; b; c].
Proof.
  intros Ha Hb Hc.
  rewrite !append_assoc.
  rewrite (split_append a) by done.
  rewrite (split_append b) by done.
  by rewrite split_no_sep.
Qed.

Lemma not_blank_base64url (s : string) :
  string_forallb is_base64url_char s = true -> s <> "" -> is_blank s = false.
Proof.
  destruct s as [|c s]; [done|]. simpl. rewrite andb_true_iff. intros [Hc _] _.
  unfold is_blank. simpl. by rewrite (base64url_char_not_space c Hc).
Qed.

(** ** jsonwebtoken: a signed token read back *)
Section JsonwebtokenFacts.
Context {prims : Primitives}.

Lemma base64url_not_dot (s : string) : string_forallb not_dot (base64url s) = true.
Proof.
  eapply string_forallb_impl; [apply base64url_char_not_dot|apply base64url_alphabet].
Qed.

Lemma jwa_sign_not_dot (alg k m : string) :
  string_forallb not_dot (jwa_sign alg k m) = true.
Proof.
  eapply string_forallb_impl; [apply base64url_char_not_dot|apply jwa_sign_alphabet].
Qed.

Lemma jwa_sign_not_blank (alg k m : string) : is_blank (jwa_sign alg k m) = false.
Proof.
  apply not_blank_base64url; [apply jwa_sign_alphabet|apply jwa_sign_nonempty].
Qed.

Lemma jws_sign_split (alg : string) (header payload : object) (secret : string) :
  split "." (jws_sign alg header payload secret) =
  [base64url (JSON_stringify header); base64url (JSON_stringify payload);
   jwa_sign alg secret
     (base64url (JSON_stringify header) +:+ "." +:+ base64url (JSON_stringify payload))].
Proof.
  unfold jws_sign.
  apply split_three; auto using base64url_not_dot, jwa_sign_not_dot.
Qed.

Lemma jws_sign_nonempty (alg : string) (header payload : object) (secret : string) :
  jws_sign alg header payload secret <> "".
Proof.
  unfold jws_sign. intros Hempty.
  apply append_empty in Hempty as [_ Hempty]. discriminate Hempty.
Qed.

Lemma segment_nonempty (o : object) : base64url (JSON_stringify o) <> "".
Proof. apply base64url_nonempty, JSON_stringify_nonempty. Qed.

(** What [jws.sign] gives has the shape of a JWS. *)
Lemma is_jws_signed (hd pl : object) (sig : string) :
  is_base64url sig = true ->
  is_jws (base64url (JSON_stringify hd)) (base64url (JSON_stringify pl)) sig = true.
Proof.
  intros Hsig. unfold is_jws, is_base64url in *.
  rewrite !bool_decide_eq_true_2 by apply segment_nonempty.
  by rewrite !base64url_alphabet, Hsig.
Qed.

(** A signature segment of the alphabet is blank only when it is empty. *)
Lemma is_jws_blank (h p s : string) :
  is_jws h p s = true -> is_blank s = true -> s = "".
Proof.
  unfold is_jws. rewrite !andb_true_iff. intros (_ & Hs) Hblank.
  destruct s as [|c s]; [done|]. exfalso.
  unfold is_base64url in Hs. cbn in Hs. apply andb_true_iff in Hs as [Hc _].
  unfold is_blank in Hblank. cbn in Hblank. apply andb_true_iff in Hblank as [Hspace _].
  by rewrite (base64url_char_not_space c Hc) in Hspace.
Qed.

Lemma jws_decode_segment_encode (o : object) :
  jws_decode_segment (base64url (JSON_stringify o)) = Some o.
Proof.
  unfold jws_decode_segment.
  by rewrite base64url_decode_encode, JSON_parse_stringify.
Qed.

(** Verifying, with secret [secret'], what was signed with [secret]: the
    signatures on the token's first two segments are compared, and the time
    claims are checked when they agree. *)
Lemma jwt_verify_jws_sign (payload : object) (secret secret' : string) (tol now : Z) :
  secret' <> "" ->
  jwt_verify (jws_sign "HS256" jwt_header payload secret) secret' tol now =
  let input :=
    base64url (JSON_stringify jwt_header) +:+ "." +:+ base64url (JSON_stringify payload) in
  if decide (jwa_sign "HS256" secret input = jwa_sign "HS256" secret' input)
  then check_claims payload tol now
  else Throw (JsonWebTokenError "invalid signature").
Proof.
  intros Hsecret. unfold jwt_verify.
  rewrite decide_False by apply jws_sign_nonempty.
  rewrite jws_sign_split, is_jws_signed by apply jwa_sign_alphabet.
  rewrite !jws_decode_segment_encode, jwa_sign_not_blank.
  rewrite decide_False by done.
  reflexivity.
Qed.

Lemma jwt_decode_jws_sign (alg : string) (hd pl : object) (secret : string) :
  jwt_decode (jws_sign alg hd pl secret) =
  let input := base64url (JSON_stringify hd) +:+ "." +:+ base64url (JSON_stringify pl) in
  Some {| header := hd; payload := pl;
          signature := jwa_sign alg secret input; securedInput := input |}.
Proof.
  unfold jwt_decode. rewrite jws_sign_split, is_jws_signed by apply jwa_sign_alphabet.
  by rewrite !jws_decode_segment_encode.
Qed.

(** A text that does not decode is refused before any secret is used. *)
Lemma jwt_verify_undecodable (token secret : string) (tol now : Z) :
  jwt_decode token = None ->
  exists message,
    jwt_verify token secret tol now = Throw (JsonWebTokenError message) /\
    message ∈ ["jwt must be provided"; "jwt malformed"; "invalid token"].
Proof.
  unfold jwt_decode, jwt_verify. intros Hdecode.
  destruct (decide (token = "")); [eexists; split; [done|set_solver]|].
  destruct (split "." token) as [|h [|p [|s [|? ?]]]];
    try (eexists; split; [done|set_solver]).
  destruct (is_jws h p s); [|eexists; split; [done|set_solver]].
  destruct (jws_decode_segment h), (jws_decode_segment p); try done;
    eexists; (split; [done|set_solver]).
Qed.

(** A text that decodes, with a signature and an HMAC algorithm: the signature
    is compared, then the time claims are checked. *)
Lemma jwt_verify_decoded (token secret alg : string) (d : Decoded) (tol now : Z) :
  jwt_decode token = Some d -> secret <> "" ->
  is_blank (signature d) = false ->
  header d !! "alg" = Some (JStr alg) -> alg ∈ HS_ALGS ->
  jwt_verify token secret tol now =
  if decide (signature d = jwa_sign alg secret (securedInput d))
  then check_claims (payload d) tol now
  else Throw (JsonWebTokenError "invalid signature").
Proof.
  unfold jwt_decode, jwt_verify. intros Hdecode Hsecret Hblank Halg Hin.
  destruct (decide (token = "")) as [->|_]; [done|].
  destruct (split "." token) as [|h [|p [|s [|? ?]]]]; try done.
  destruct (is_jws h p s); [|done].
  destruct (jws_decode_segment h) as [hd|], (jws_decode_segment p) as [pl|]; try done.
  injection Hdecode as <-. cbn [signature header payload securedInput] in *.
  rewrite Hblank, decide_False, Halg, bool_decide_eq_true_2 by done.
  done.
Qed.

(** The signature segment of a text that decodes is of the base64url
    alphabet, so it is blank only when it is empty. *)
Lemma jwt_decode_signature (token : string) (d : Decoded) :
  jwt_decode token = Some d ->
  is_base64url (signature d) = true /\
  (is_blank (signature d) = true <-> signature d = "").
Proof.
  unfold jwt_decode. intros Hdecode.
  destruct (split "." token) as [|h [|p [|s [|? ?]]]]; try done.
  destruct (is_jws h p s) eqn:Hjws; [|done].
  destruct (jws_decode_segment h) as [hd|], (jws_decode_segment p) as [pl|]; try done.
  injection Hdecode as <-. cbn [signature]. split.
  - unfold is_jws in Hjws. rewrite !andb_true_iff in Hjws. by destruct Hjws as (_ & Hs).
  - split; [by apply (is_jws_blank h p)|by intros ->].
Qed.

(** What [jwt.verify] answers to a text that decodes, step by step. *)
Lemma jwt_verify_of_decoded (token secret : string) (d : Decoded) (tol now : Z) :
  jwt_decode token = Some d -> secret <> "" ->
  jwt_verify token secret tol now =
  if decide (signature d = "")
  then Throw (JsonWebTokenError "jwt signature is required")
  else
    match header d !! "alg" with
    | Some (JStr alg) =>
        if bool_decide (alg ∈ HS_ALGS) then
          if decide (signature d = jwa_sign alg secret (securedInput d))
          then check_claims (payload d) tol now
          else Throw (JsonWebTokenError "invalid signature")
        else Throw (JsonWebTokenError "invalid algorithm")
    | _ => Throw (JsonWebTokenError "invalid algorithm")
    end.
Proof.
  intros Hdecode Hsecret.
  destruct (jwt_decode_signature token d Hdecode) as [_ Hblank].
  revert Hdecode. unfold jwt_decode, jwt_verify. intros Hdecode.
  destruct (decide (token = "")) as [->|_]; [done|].
  destruct (split "." token) as [|h [|p [|s [|? ?]]]]; try done.
  destruct (is_jws h p s); [|done].
  destruct (jws_decode_segment h) as [hd|], (jws_decode_segment p) as [pl|]; try done.
  injection Hdecode as <-. cbn [signature header payload securedInput] in *.
  destruct (decide (s = "")) as [Hs|Hs].
  - rewrite (proj2 Hblank Hs). by rewrite decide_False by done.
  - destruct (is_blank s); [by destruct Hs; apply Hblank|].
    by rewrite decide_False by done.
Qed.

(** Whatever [jwt.verify] throws is one of its own errors. *)
Lemma jwt_verify_throws (token secret : string) (tol now : Z) (e : exn) :
  jwt_verify token secret tol now = Throw e -> is_jwt_error e = true.
Proof.
  unfold jwt_verify, check_claims, check_exp. intros Hverify.
  repeat (match type of Hverify with
          | context [match ?x with _ => _ end] => destruct x
          end); by simplify_eq.
Qed.

End JsonwebtokenFacts.

(** ** JwtService: what is signed and what verification answers *)
Section JwtServiceFacts.
Context {prims : Primitives}.
Import JwtService.

Lemma jwt_sign_userId (userId secret expiresIn : string) (now m : Z) :
  secret <> "" -> expiresIn <> "" -> ms expiresIn = Some m ->
  jwt_sign (<["userId" := JStr userId]> ∅) secret expiresIn now =
  Return (jws_sign "HS256" jwt_header (signed_claims userId now (now + m / 1000)) secret).
Proof.
  intros Hsecret Hexpiry Hms. unfold jwt_sign, timespan.
  rewrite !decide_False by done. by rewrite Hms.
Qed.

Lemma generate_returns (this : t) (k : TokenKind) (now m : Z) (userId : string) :
  secret_of this k <> "" -> expiry_of this k <> "" -> ms (expiry_of this k) = Some m ->
  generate this k now userId =
  Return (jws_sign "HS256" jwt_header (signed_claims userId now (now + m / 1000))
            (secret_of this k)).
Proof. destruct k; apply jwt_sign_userId. Qed.

Lemma check_claims_signed (userId : string) (iat exp tol now : Z) :
  check_claims (signed_claims userId iat exp) tol now =
  if decide (now >= exp + tol) then Throw (TokenExpiredError "jwt expired" exp)
  else Return (signed_claims userId iat exp).
Proof. reflexivity. Qed.

(** A token of kind [k] presented as kind [k']. *)
Lemma verify_generated (this : t) (k k' : TokenKind) (userId : string) (iat exp now : Z) :
  secret_of this k' <> "" ->
  verify this k' now
    (jws_sign "HS256" jwt_header (signed_claims userId iat exp) (secret_of this k)) =
  let input := base64url (JSON_stringify jwt_header) +:+ "." +:+
               base64url (JSON_stringify (signed_claims userId iat exp)) in
  if decide (jwa_sign "HS256" (secret_of this k) input =
             jwa_sign "HS256" (secret_of this k') input)
  then if decide (now >= exp) then Throw (TokenExpiredError "jwt expired" exp)
       else Return (signed_claims userId iat exp)
  else Throw (JsonWebTokenError "invalid signature").
Proof.
  intros Hsecret.
  assert (verify this k' now = fun token => jwt_verify token (secret_of this k') 0 now)
    as -> by (by destruct k').
  rewrite jwt_verify_jws_sign by done. cbv zeta.
  rewrite check_claims_signed, Z.add_0_r. reflexivity.
Qed.

Lemma verify_generated_same (this : t) (k : TokenKind) (userId : string) (iat exp now : Z) :
  secret_of this k <> "" -> now < exp ->
  verify this k now
    (jws_sign "HS256" jwt_header (signed_claims userId iat exp) (secret_of this k)) =
  Return (signed_claims userId iat exp).
Proof.
  intros Hsecret Hnow. rewrite verify_generated by done. cbv zeta.
  rewrite decide_True by done. rewrite decide_False by lia. done.
Qed.

(** Verification keeps no state: a token that is accepted is accepted again,
    as long as it has not expired.  Nothing in the service rotates or revokes
    a refresh token. *)
Lemma verifyRefreshToken_stateless (this : t) (userId : string) (issued now later m : Z) :
  _refreshSecret this <> "" -> _refreshExpiry this <> "" ->
  ms (_refreshExpiry this) = Some m ->
  now < issued + m / 1000 -> later < issued + m / 1000 ->
  exists token,
    generateRefreshToken this issued userId = Return token /\
    verifyRefreshToken this now token =
    Return (signed_claims userId issued (issued + m / 1000)) /\
    verifyRefreshToken this later token =
    Return (signed_claims userId issued (issued + m / 1000)).
Proof.
  intros Hsecret Hexpiry Hms Hnow Hlater.
  eexists. split; [apply (generate_returns this RefreshToken); eassumption|].
  split; by apply (verify_generated_same this RefreshToken).
Qed.

End JwtServiceFacts.

(** ** JwtService: the claims about tokens *)
Section JwtServiceClaims.
Context {prims : Primitives}.
Import JwtService.

(** C7. Issue/verify round trip: a freshly issued access token, verified as an
    access token before its expiry, is accepted and the claims that were
    signed come back, the subject claim [userId] being the user it was issued
    for; likewise a refresh token verified as a refresh token.  (Issuing
    needs a non-empty secret and an expiry text that [ms] understands.) *)
Theorem issue_verify_round_trip (this : t) (userId : string)
    (issued nowA nowR ma mr : Z) :
  _accessSecret this <> "" -> _accessExpiry this <> "" ->
  ms (_accessExpiry this) = Some ma ->
  _refreshSecret this <> "" -> _refreshExpiry this <> "" ->
  ms (_refreshExpiry this) = Some mr ->
  nowA < issued + ma / 1000 -> nowR < issued + mr / 1000 ->
  (exists token claims,
      generateAccessToken this issued userId = Return token /\
      verifyAccessToken this nowA token = Return claims /\
      claims = signed_claims userId issued (issued + ma / 1000) /\
      claims !! "userId" = Some (JStr userId)) /\
  (exists token claims,
      generateRefreshToken this issued userId = Return token /\
      verifyRefreshToken this nowR token = Return claims /\
      claims = signed_claims userId issued (issued + mr / 1000) /\
      claims !! "userId" = Some (JStr userId)).
Proof.
  intros HsA HeA HmA HsR HeR HmR HnowA HnowR. split.
  - eexists _, _. split; [apply (generate_returns this AccessToken); eassumption|].
    split; [apply (verify_generated_same this AccessToken); assumption|].
    split; reflexivity.
  - eexists _, _. split; [apply (generate_returns this RefreshToken); eassumption|].
    split; [apply (verify_generated_same this RefreshToken); assumption|].
    split; reflexivity.
Qed.

(** C9. Nothing but the signing secret tells the two kinds of token apart:
    every token of either kind is the HS256 signature, under that kind's
    secret, of the same header and of [{userId, iat, exp}].  So with equal
    secrets [verifyAccessToken] accepts a refresh token and
    [verifyRefreshToken] accepts an access token (until it expires), and with
    equal expiry texts as well the two tokens are the same text.  A cross-kind
    presentation is rejected exactly when the two secrets sign the token
    differently, which needs the secrets to differ. *)
Theorem token_kinds_differ_by_secret_only (this : t) (userId : string)
    (issued now ma mr : Z) :
  _accessSecret this <> "" -> _accessExpiry this <> "" ->
  ms (_accessExpiry this) = Some ma ->
  _refreshSecret this <> "" -> _refreshExpiry this <> "" ->
  ms (_refreshExpiry this) = Some mr ->
  exists accessTok refreshTok,
    generateAccessToken this issued userId = Return accessTok /\
    generateRefreshToken this issued userId = Return refreshTok /\
    accessTok = jws_sign "HS256" jwt_header
                  (signed_claims userId issued (issued + ma / 1000)) (_accessSecret this) /\
    refreshTok = jws_sign "HS256" jwt_header
                   (signed_claims userId issued (issued + mr / 1000)) (_refreshSecret this) /\
    (_accessSecret this = _refreshSecret this ->
       (now < issued + mr / 1000 ->
          verifyAccessToken this now refreshTok =
          Return (signed_claims userId issued (issued + mr / 1000))) /\
       (now < issued + ma / 1000 ->
          verifyRefreshToken this now accessTok =
          Return (signed_claims userId issued (issued + ma / 1000))) /\
       (_accessExpiry this = _refreshExpiry this -> accessTok = refreshTok)) /\
    (now < issued + mr / 1000 ->
       returned (verifyAccessToken this now refreshTok) = false ->
       verifyAccessToken this now refreshTok = Throw (JsonWebTokenError "invalid signature") /\
       _accessSecret this <> _refreshSecret this) /\
    (now < issued + ma / 1000 ->
       returned (verifyRefreshToken this now accessTok) = false ->
       verifyRefreshToken this now accessTok = Throw (JsonWebTokenError "invalid signature") /\
       _accessSecret this <> _refreshSecret this).
Proof.
  intros HsA HeA HmA HsR HeR HmR.
  eexists _, _.
  split; [apply (generate_returns this AccessToken); eassumption|].
  split; [apply (generate_returns this RefreshToken); eassumption|].
  split; [reflexivity|]. split; [reflexivity|]. cbn [secret_of].
  pose proof (verify_generated this RefreshToken AccessToken userId issued
                (issued + mr / 1000) now HsA) as Hcross.
  pose proof (verify_generated this AccessToken RefreshToken userId issued
                (issued + ma / 1000) now HsR) as Hcross'.
  cbn [secret_of verify] in Hcross, Hcross'. cbv zeta in Hcross, Hcross'.
  split; [|split].
  - intros Heq. split; [|split].
    + intros Hnow. rewrite Hcross, Heq.
      rewrite decide_True by done. by rewrite decide_False by lia.
    + intros Hnow. rewrite Hcross', Heq.
      rewrite decide_True by done. by rewrite decide_False by lia.
    + intros Hexp. rewrite Hexp, HmR in HmA. injection HmA as <-. by rewrite Heq.
  - intros Hnow. rewrite Hcross. clear Hcross Hcross'.
    destruct (decide (jwa_sign _ _ _ = _)) as [Hsig|Hsig].
    + rewrite decide_False by lia. discriminate.
    + intros _. split; [done|]. intros Heq. apply Hsig. by rewrite Heq.
  - intros Hnow. rewrite Hcross'. clear Hcross Hcross'.
    destruct (decide (jwa_sign _ _ _ = _)) as [Hsig|Hsig].
    + rewrite decide_False by lia. discriminate.
    + intros _. split; [done|]. intros Heq. apply Hsig. by rewrite Heq.
Qed.

(** C3 (as amended). The refresh token issued for a user carries the signed
    claims [{userId, iat, exp}], and so does the access token: [iat] is the
    time of issue, [exp] is [iat] plus the configured time span of the kind,
    and the signature is the HS256 signature of the kind's secret on header
    and payload.  There is no session-id parameter; neither kind carries a
    [sid] or a [sub] claim. *)
Theorem generated_token_claims (this : t) (k : TokenKind) (userId : string) (now m : Z) :
  secret_of this k <> "" -> expiry_of this k <> "" -> ms (expiry_of this k) = Some m ->
  exists token d,
    generate this k now userId = Return token /\
    jwt_decode token = Some d /\
    header d = jwt_header /\
    payload d = signed_claims userId now (now + m / 1000) /\
    signature d = jwa_sign "HS256" (secret_of this k) (securedInput d) /\
    dom (payload d) = {["userId"; "iat"; "exp"]} /\
    payload d !! "userId" = Some (JStr userId) /\
    payload d !! "iat" = Some (JNum now) /\
    payload d !! "exp" = Some (JNum (now + m / 1000)) /\
    payload d !! "sid" = None /\
    payload d !! "sub" = None.
Proof.
  intros Hsecret Hexpiry Hms.
  eexists _, _. split; [by apply generate_returns|].
  split; [apply jwt_decode_jws_sign|]. cbv zeta. cbn [header payload signature securedInput].
  split; [done|]. split; [done|]. split; [done|].
  split.
  { unfold signed_claims. rewrite !dom_insert_L, dom_empty_L. set_solver. }
  repeat split; reflexivity.
Qed.

(** C8 (as amended). For every text and either kind (with a non-empty
    secret): a text that does not decode into three segments with a readable
    header and payload is refused with a [JsonWebTokenError] that says so (the
    specification's [TokenMalformed]).  A text that decodes is refused with
    [jwt signature is required] when its signature segment is empty, with
    [invalid algorithm] when it is signed and its header names no HMAC
    algorithm, and with [JsonWebTokenError "invalid signature"]
    ([TokenSignatureInvalid]) when its signature is not the one the kind's
    secret gives.  With the right signature, the time claims decide: an [nbf]
    that is no number or still ahead is refused, so is an [exp] that is no
    number, and the token is refused with [TokenExpiredError]
    ([TokenExpired]) as soon as the clock has reached [exp], and accepted
    otherwise.  No clock tolerance applies: the service passes no option to
    [jwt.verify]. *)
Theorem verify_failures (this : t) (k : TokenKind) (token : string) (now : Z) :
  secret_of this k <> "" ->
  (jwt_decode token = None ->
     exists message,
       verify this k now token = Throw (JsonWebTokenError message) /\
       message ∈ ["jwt must be provided"; "jwt malformed"; "invalid token"]) /\
  (forall d,
     jwt_decode token = Some d ->
     (signature d = "" ->
        verify this k now token = Throw (JsonWebTokenError "jwt signature is required")) /\
     (signature d <> "" ->
      (forall alg, header d !! "alg" = Some (JStr alg) -> alg ∉ HS_ALGS) ->
        verify this k now token = Throw (JsonWebTokenError "invalid algorithm")) /\
     (forall alg,
        header d !! "alg" = Some (JStr alg) -> alg ∈ HS_ALGS ->
        (signature d <> "" ->
         signature d <> jwa_sign alg (secret_of this k) (securedInput d) ->
           verify this k now token = Throw (JsonWebTokenError "invalid signature")) /\
        (signature d = jwa_sign alg (secret_of this k) (securedInput d) ->
           (forall text, payload d !! "nbf" = Some (JStr text) ->
              verify this k now token = Throw (JsonWebTokenError "invalid nbf value")) /\
           (forall nbf, payload d !! "nbf" = Some (JNum nbf) -> now < nbf ->
              verify this k now token = Throw (NotBeforeError "jwt not active")) /\
           (payload d !! "nbf" = None \/
            (exists nbf, payload d !! "nbf" = Some (JNum nbf) /\ nbf <= now) ->
              (forall text, payload d !! "exp" = Some (JStr text) ->
                 verify this k now token = Throw (JsonWebTokenError "invalid exp value")) /\
              (forall exp, payload d !! "exp" = Some (JNum exp) ->
                 (exp <= now ->
                    verify this k now token = Throw (TokenExpiredError "jwt expired" exp)) /\
                 (now < exp -> verify this k now token = Return (payload d))) /\
              (payload d !! "exp" = None ->
                 verify this k now token = Return (payload d)))))).
Proof.
  intros Hsecret.
  assert (verify this k now = fun token => jwt_verify token (secret_of this k) 0 now)
    as -> by (by destruct k).
  split; [apply jwt_verify_undecodable|].
  intros d Hdecode.
  rewrite (jwt_verify_of_decoded _ _ d) by done.
  split; [|split].
  - intros Hsig. by rewrite decide_True.
  - intros Hsig Halg. rewrite decide_False by done.
    destruct (header d !! "alg") as [[alg|?]|]; [|done|done].
    by rewrite bool_decide_eq_false_2 by by apply Halg.
  - intros alg Halg Hin. rewrite Halg, bool_decide_eq_true_2 by done.
    split.
    + intros Hsig Hmac. by rewrite !decide_False by done.
    + intros Hmac.
      rewrite (decide_False (P := signature d = "")) by
        (rewrite Hmac; apply jwa_sign_nonempty).
      rewrite decide_True by done. unfold check_claims, check_exp.
      split; [|split].
      * by intros text ->.
      * intros nbf -> Hnow. by rewrite decide_True by lia.
      * intros Hnbf.
        assert (match payload d !! "nbf" with
                | Some (JStr _) => Throw (JsonWebTokenError "invalid nbf value")
                | Some (JNum nbf) =>
                    if decide (nbf > now + 0) then Throw (NotBeforeError "jwt not active")
                    else check_exp (payload d) 0 now
                | None => check_exp (payload d) 0 now
                end = check_exp (payload d) 0 now) as Hpast.
        { destruct Hnbf as [->|(nbf & -> & Hle)]; [done|]. by rewrite decide_False by lia. }
        unfold check_exp in Hpast. rewrite Hpast.
        split; [|split].
        -- by intros text ->.
        -- intros exp ->.
           split; intros Hnow; [rewrite decide_True by lia|rewrite decide_False by lia];
             done.
        -- by intros ->.
Qed.

End JwtServiceClaims.

(** ** JwtService on the concrete configuration *)
Section JwtServiceExamples.
#[local] Existing Instance Reference.primitives.
Import JwtService.

(** C7 at a concrete input: tokens for [u1] issued at time 0 ([15m] and [7d]),
    verified one second before they expire. *)
Lemma issue_verify_round_trip_example :
  (exists token claims,
      generateAccessToken Example.jwtService 0 "u1" = Return token /\
      verifyAccessToken Example.jwtService 899 token = Return claims /\
      claims = signed_claims "u1" 0 900 /\
      claims !! "userId" = Some (JStr "u1")) /\
  (exists token claims,
      generateRefreshToken Example.jwtService 0 "u1" = Return token /\
      verifyRefreshToken Example.jwtService 604799 token = Return claims /\
      claims = signed_claims "u1" 0 604800 /\
      claims !! "userId" = Some (JStr "u1")).
Proof.
  exact (issue_verify_round_trip Example.jwtService "u1" 0 899 604799 900000 604800000
           ltac:(done) ltac:(done) eq_refl ltac:(done) ltac:(done) eq_refl
           eq_refl eq_refl).
Defined.

(** C9 at a concrete input: with one secret for both kinds, the refresh token
    of [u1] passes [verifyAccessToken]. *)
Lemma shared_secret_example :
  exists refreshTok,
    generateRefreshToken Example.sharedSecretService 0 "u1" = Return refreshTok /\
    verifyAccessToken Example.sharedSecretService 10 refreshTok =
    Return (signed_claims "u1" 0 604800).
Proof.
  destruct (token_kinds_differ_by_secret_only Example.sharedSecretService "u1"
              0 10 900000 604800000
              ltac:(done) ltac:(done) eq_refl ltac:(done) ltac:(done) eq_refl)
    as (accessTok & refreshTok & _ & Hrefresh & _ & _ & Hshared & _).
  exists refreshTok. split; [exact Hrefresh|].
  exact (proj1 (Hshared eq_refl) eq_refl).
Defined.

(** C3, the claim as stated fails: the refresh token that the service issues
    for [u1] decodes to [{userId, iat, exp}]; it has no [sid] claim (the
    method takes no session id) and no [sub] claim. *)
Lemma refresh_token_without_sid :
  exists token d,
    generateRefreshToken Example.jwtService 0 "u1" = Return token /\
    jwt_decode token = Some d /\
    payload d = signed_claims "u1" 0 604800 /\
    payload d !! "sid" = None /\
    payload d !! "sub" = None.
Proof.
  eexists _, _.
  split; [exact (generate_returns Example.jwtService RefreshToken 0 604800000 "u1"
                   ltac:(done) ltac:(done) eq_refl)|].
  split; [apply jwt_decode_jws_sign|].
  cbv zeta. cbn [payload]. repeat split; reflexivity.
Qed.

(** C3 as amended, at a concrete input. *)
Lemma generated_token_claims_example :
  exists token d,
    generateRefreshToken Example.jwtService 0 "u1" = Return token /\
    jwt_decode token = Some d /\
    dom (payload d) = {["userId"; "iat"; "exp"]} /\
    payload d !! "userId" = Some (JStr "u1").
Proof.
  destruct (generated_token_claims Example.jwtService RefreshToken "u1" 0 604800000
              ltac:(done) ltac:(done) eq_refl)
    as (token & d & Hgen & Hdec & _ & _ & _ & Hdom & Huser & _).
  exists token, d. exact (conj Hgen (conj Hdec (conj Hdom Huser))).
Defined.

(** C8, the claim as stated fails: an access token whose [exp] is 900 is
    refused with [TokenExpiredError] one second later, and there is no
    tolerance, however small, within which it would still verify. *)
Lemma no_clock_skew_tolerance :
  exists token,
    generateAccessToken Example.jwtService 0 "u1" = Return token /\
    verifyAccessToken Example.jwtService 901 token =
    Throw (TokenExpiredError "jwt expired" 900) /\
    ~ (exists tol, 0 < tol /\
         forall now, 900 < now <= 900 + tol ->
           returned (verifyAccessToken Example.jwtService now token) = true).
Proof.
  eexists.
  split; [exact (generate_returns Example.jwtService AccessToken 0 900000 "u1"
                   ltac:(done) ltac:(done) eq_refl)|].
  pose proof (fun now =>
    verify_generated Example.jwtService AccessToken AccessToken "u1" 0 900 now
      ltac:(done)) as Hverify.
  cbn [verify secret_of] in Hverify. cbv zeta in Hverify.
  split.
  - rewrite Hverify, decide_True by done. by rewrite decide_True by lia.
  - intros (tol & Htol & Hall). specialize (Hall 901 ltac:(lia)).
    rewrite Hverify, decide_True in Hall by done.
    by rewrite decide_True in Hall by lia.
Qed.

(** C8 as amended, at concrete inputs: a text that is no token. *)
Lemma verify_failures_example :
  exists message,
    verifyAccessToken Example.jwtService 0 "not a token" =
    Throw (JsonWebTokenError message) /\
    message ∈ ["jwt must be provided"; "jwt malformed"; "invalid token"].
Proof.
  exact (proj1 (verify_failures Example.jwtService AccessToken "not a token" 0
                  ltac:(done)) eq_refl).
Defined.

End JwtServiceExamples.

(** ** RedisService: what each call does to the client *)
Section RedisServiceFacts.
Import RedisService.

Lemma next_fault_none (c : Redis.t) :
  Redis.faults c = [] -> Redis.next_fault c = (None, c).
Proof. unfold Redis.next_fault. by intros ->. Qed.

Lemma next_fault_some (c : Redis.t) (f : option fault) (fs : list (option fault)) :
  Redis.faults c = f :: fs ->
  Redis.next_fault c = (f, {| Redis.keyspace := Redis.keyspace c; Redis.faults := fs |}).
Proof. unfold Redis.next_fault. by intros ->. Qed.

(** The command that is consumed leaves the keyspace as it is. *)
Lemma next_fault_keyspace (c : Redis.t) :
  Redis.keyspace (Redis.next_fault c).2 = Redis.keyspace c.
Proof. unfold Redis.next_fault. by destruct (Redis.faults c). Qed.

Lemma valid_expire_positive (now seconds : Z) : Redis.valid_expire now seconds -> 0 < seconds.
Proof. by intros [? _]. Qed.

Lemma set_ok (this : t) (now : Z) (key value : string) (ttl : Z) :
  Redis.faults (_client this) = [] -> Redis.valid_expire now ttl ->
  set this now key value ttl =
  (Settled (Return tt),
   {| _client := {| Redis.keyspace :=
                      <[key := (value, now + ttl)]> (Redis.keyspace (_client this));
                    Redis.faults := [] |} |}).
Proof.
  intros Hfaults Httl. unfold set, Redis.setEx.
  rewrite next_fault_none by done. rewrite decide_True by done. by rewrite Hfaults.
Qed.

Lemma set_invalid_expiry (this : t) (now : Z) (key value : string) (ttl : Z) :
  Redis.faults (_client this) = [] -> ~ Redis.valid_expire now ttl ->
  set this now key value ttl = (Settled (Throw (Error "Redis set failed")), this).
Proof.
  intros Hfaults Httl. unfold set, Redis.setEx.
  rewrite next_fault_none by done. rewrite decide_False by done.
  destruct this. by destruct (decide (_ <= _ <= _)).
Qed.

Lemma set_not_whole (this : t) (now : Z) (key value : string) :
  Redis.faults (_client this) = [] ->
  set this now key value NotWhole = (Settled (Throw (Error "Redis set failed")), this).
Proof.
  intros Hfaults. unfold set, Redis.setEx.
  rewrite next_fault_none by done. by destruct this.
Qed.

Lemma get_ok (this : t) (now : Z) (key : string) :
  Redis.faults (_client this) = [] ->
  get this now key = (Settled (Return (Redis.lookup (_client this) now key)), this).
Proof.
  intros Hfaults. unfold get, Redis.get.
  rewrite next_fault_none by done. by destruct this.
Qed.

Lemma del_ok (this : t) (now : Z) (key : string) :
  Redis.faults (_client this) = [] ->
  del this now key =
  (Settled (Return tt),
   {| _client := {| Redis.keyspace := delete key (Redis.keyspace (_client this));
                    Redis.faults := [] |} |}).
Proof.
  intros Hfaults. unfold del, Redis.del.
  rewrite next_fault_none by done. by rewrite Hfaults.
Qed.

Lemma lookup_insert_key (m : gmap string (string * Z)) (fs : list (option fault))
    (key value : string) (expireAt now : Z) :
  Redis.lookup {| Redis.keyspace := <[key := (value, expireAt)]> m; Redis.faults := fs |}
    now key =
  if decide (now < expireAt) then Some value else None.
Proof. unfold Redis.lookup. cbn. by rewrite lookup_insert_eq. Qed.

Lemma lookup_insert_other (m : gmap string (string * Z)) (fs fs' : list (option fault))
    (key key' value : string) (expireAt now : Z) :
  key <> key' ->
  Redis.lookup {| Redis.keyspace := <[key := (value, expireAt)]> m; Redis.faults := fs |}
    now key' =
  Redis.lookup {| Redis.keyspace := m; Redis.faults := fs' |} now key'.
Proof. intros Hne. unfold Redis.lookup. cbn. by rewrite lookup_insert_ne. Qed.

Lemma lookup_delete_key (m : gmap string (string * Z)) (fs : list (option fault))
    (key : string) (now : Z) :
  Redis.lookup {| Redis.keyspace := delete key m; Redis.faults := fs |} now key = None.
Proof. unfold Redis.lookup. cbn. by rewrite lookup_delete_eq. Qed.

Lemma lookup_delete_other (m : gmap string (string * Z)) (fs fs' : list (option fault))
    (key key' : string) (now : Z) :
  key <> key' ->
  Redis.lookup {| Redis.keyspace := delete key m; Redis.faults := fs |} now key' =
  Redis.lookup {| Redis.keyspace := m; Redis.faults := fs' |} now key'.
Proof. intros Hne. unfold Redis.lookup. cbn. by rewrite lookup_delete_ne. Qed.


End RedisServiceFacts.

(** ** RedisService: the claims about the store *)
Section RedisServiceClaims.
Import RedisService.

(** C5, as amended. A failure that the client reports by rejecting the
    command behind [set], [get] or [del] always reaches the caller as a
    thrown error, [Redis set failed], [Redis get failed] or
    [Redis delete failed] (the specification's [StoreUnavailable]); the call
    returns normally only when the command resolved, and a rejected [get] is
    never turned into [null].  A command that the client never answers throws
    nothing: the call stays pending. *)
Theorem store_failures_surface (this : t) (now : Z) (key value : string) (ttl : number) :
  match (Redis.setEx (_client this) now key ttl value).1 with
  | Rejected _ =>
      exists e, (set this now key value ttl).1 = Throw e /\ StoreUnavailable e
  | Resolved _ => (set this now key value ttl).1 = Return tt
  | Unanswered => (set this now key value ttl).1 = Pending
  end /\
  match (Redis.get (_client this) now key).1 with
  | Rejected _ => exists e, (get this now key).1 = Throw e /\ StoreUnavailable e
  | Resolved v => (get this now key).1 = Return v
  | Unanswered => (get this now key).1 = Pending
  end /\
  match (Redis.del (_client this) now key).1 with
  | Rejected _ => exists e, (del this now key).1 = Throw e /\ StoreUnavailable e
  | Resolved _ => (del this now key).1 = Return tt
  | Unanswered => (del this now key).1 = Pending
  end /\
  (forall reason rest,
     Redis.faults (_client this) = Some (Rejects reason) :: rest ->
     (set this now key value ttl).1 = Throw (Error "Redis set failed") /\
     (get this now key).1 = Throw (Error "Redis get failed") /\
     (del this now key).1 = Throw (Error "Redis delete failed")) /\
  (forall rest,
     Redis.faults (_client this) = Some NoAnswer :: rest ->
     (set this now key value ttl).1 = Pending /\
     (get this now key).1 = Pending /\
     (del this now key).1 = Pending).
Proof.
  unfold StoreUnavailable, set, get, del.
  split; [|split; [|split; [|split]]].
  - destruct (Redis.setEx _ _ _ _ _) as [[?|?|] ?]; cbn; eauto.
  - destruct (Redis.get _ _ _) as [[?|?|] ?]; cbn; eauto 6.
  - destruct (Redis.del _ _ _) as [[?|?|] ?]; cbn; eauto 6.
  - intros reason rest Hfaults.
    unfold Redis.setEx, Redis.get, Redis.del.
    by rewrite (next_fault_some _ _ _ Hfaults).
  - intros rest Hfaults.
    unfold Redis.setEx, Redis.get, Redis.del.
    by rewrite (next_fault_some _ _ _ Hfaults).
Qed.

(** C10. For a key that the store does not hold (never set, deleted or
    expired), [get] returns [null] and does not throw whenever the client's
    command goes through; when the command fails, [get] throws
    [Redis get failed] instead, so an absent key and a failed read are told
    apart.  (A command that is never answered leaves [get] pending: it
    returns nothing, [null] included.) *)
Theorem get_absent_returns_null (this : t) (now : Z) (key : string) :
  Redis.lookup (_client this) now key = None ->
  match (Redis.next_fault (_client this)).1 with
  | None => (get this now key).1 = Return None
  | Some (Rejects _) => (get this now key).1 = Throw (Error "Redis get failed")
  | Some NoAnswer => (get this now key).1 = Pending
  end /\
  Return (@None string) <> Throw (Error "Redis get failed").
Proof.
  intros Habsent. split; [|done].
  unfold get, Redis.get.
  destruct (Redis.next_fault (_client this)) as [[[reason|]|] c] eqn:Hnext; cbn;
    [done|done|].
  assert (Redis.keyspace c = Redis.keyspace (_client this)) as Hkeys.
  { unfold Redis.next_fault in Hnext.
    destruct (Redis.faults (_client this)); by simplify_eq. }
  unfold Redis.lookup in *. rewrite Hkeys. by rewrite Habsent.
Qed.

End RedisServiceClaims.

(** ** The session layer: keys *)
Section SessionFacts.
Import Session.


End SessionFacts.

(** ** The session layer on a store that meets no fault *)
Section SessionRuns.
Context {prims : Primitives}.
Import Session.
Variable cfg : Config.

Lemma set_healthy (m : gmap string (string * Z)) (now : Z) (key value : string) (ttl : Z) :
  Redis.valid_expire now ttl ->
  RedisService.set (RedisService.healthy m) now key value ttl =
  (Settled (Return tt), RedisService.healthy (<[key := (value, now + ttl)]> m)).
Proof. intros Httl. by rewrite set_ok. Qed.

Lemma get_healthy (m : gmap string (string * Z)) (now : Z) (key : string) :
  RedisService.get (RedisService.healthy m) now key =
  (Settled (Return (Redis.lookup (RedisService._client (RedisService.healthy m)) now key)),
   RedisService.healthy m).
Proof. by rewrite get_ok. Qed.

Lemma del_healthy (m : gmap string (string * Z)) (now : Z) (key : string) :
  RedisService.del (RedisService.healthy m) now key =
  (Settled (Return tt), RedisService.healthy (delete key m)).
Proof. by rewrite del_ok. Qed.


Lemma revocation_contains_healthy (m : gmap string (string * Z)) (now : Z)
    (subjectId : string) :
  revocation_contains now subjectId (RedisService.healthy m) =
  (Ok (match Redis.lookup (RedisService._client (RedisService.healthy m)) now
               (revoked_key subjectId) with
       | Some _ => true
       | None => false
       end),
   RedisService.healthy m).
Proof. unfold revocation_contains, bind, store, ret. by rewrite get_healthy. Qed.


End SessionRuns.

(** ** The session layer: the claims about login, logout and the store *)
Section SessionStoreClaims.
Context {prims : Primitives}.
Import Session.
Variable cfg : Config.




End SessionStoreClaims.

(** ** The session layer: access-token verification *)
Section VerifyAccessClaims.
Context {prims : Primitives}.
Import Session.
Variable jwt : JwtService.t.

Lemma lookup_next_fault (c : Redis.t) (now : Z) (key : string) :
  Redis.lookup (Redis.next_fault c).2 now key = Redis.lookup c now key.
Proof. unfold Redis.next_fault. by destruct (Redis.faults c). Qed.

Lemma revocation_contains_same (now : Z) (subjectId : string) (st st' : RedisService.t) :
  same_revocations now st st' ->
  (revocation_contains now subjectId st').1 = (revocation_contains now subjectId st).1 /\
  same_revocations now (revocation_contains now subjectId st).2
    (revocation_contains now subjectId st').2.
Proof.
  intros [Hfaults Hlookup].
  unfold revocation_contains, bind, store, ret, RedisService.get, Redis.get.
  pose proof (lookup_next_fault (RedisService._client st) now) as Hst.
  pose proof (lookup_next_fault (RedisService._client st') now) as Hst'.
  assert ((Redis.next_fault (RedisService._client st')).1 =
          (Redis.next_fault (RedisService._client st)).1 /\
          Redis.faults (Redis.next_fault (RedisService._client st')).2 =
          Redis.faults (Redis.next_fault (RedisService._client st)).2) as [Hfate Hrest].
  { unfold Redis.next_fault. rewrite Hfaults.
    destruct (Redis.faults (RedisService._client st)) eqn:Hfs; cbn; split; congruence. }
  destruct (Redis.next_fault (RedisService._client st)) as [fate c].
  destruct (Redis.next_fault (RedisService._client st')) as [fate' c'].
  cbn in Hfate, Hrest, Hst, Hst'. subst fate'.
  assert (forall subjectId,
            Redis.lookup c' now (revoked_key subjectId) =
            Redis.lookup c now (revoked_key subjectId)) as Hsame.
  { intros s. by rewrite Hst, Hst'. }
  destruct fate as [[reason|]|]; cbn.
  - done.
  - done.
  - rewrite Hsame. done.
Qed.

Lemma verifyAccess_healthy (m : gmap string (string * Z)) (now : Z) (token : string)
    (claims : object) (u : string) :
  JwtService.verifyAccessToken jwt now token = Return claims ->
  subject claims = Some u ->
  verifyAccess jwt now token (RedisService.healthy m) =
  (let held key :=
     is_some (Redis.lookup (RedisService._client (RedisService.healthy m)) now key) in
   if held (revoked_key u) then Err SessionRevoked
   else match session_of claims with
        | Some s => if held (revoked_key s) then Err SessionRevoked else Ok u
        | None => Ok u
        end,
   RedisService.healthy m).
Proof.
  intros Hverify Hsubject. unfold verifyAccess, fail, ret.
  rewrite Hverify, Hsubject.
  unfold bind at 1. rewrite revocation_contains_healthy. cbv zeta.
  destruct (Redis.lookup _ now (revoked_key u)); [done|]. cbn [is_some].
  destruct (session_of claims) as [s|]; [|done].
  unfold bind. rewrite revocation_contains_healthy.
  by destruct (Redis.lookup _ now (revoked_key s)).
Qed.

Lemma verifyAccess_steps (st : RedisService.t) (now : Z) (token : string) :
  verifyAccess jwt now token st =
  match JwtService.verifyAccessToken jwt now token with
  | Throw e => (Err (token_error e), st)
  | Return claims =>
      match subject claims with
      | None => (Err TokenMalformed, st)
      | Some u =>
          match revocation_contains now u st with
          | (Err e, st1) => (Err e, st1)
          | (Ok true, st1) => (Err SessionRevoked, st1)
          | (Ok false, st1) =>
              match session_of claims with
              | None => (Ok u, st1)
              | Some s =>
                  match revocation_contains now s st1 with
                  | (Err e, st2) => (Err e, st2)
                  | (Ok true, st2) => (Err SessionRevoked, st2)
                  | (Ok false, st2) => (Ok u, st2)
                  end
              end
          end
      end
  end.
Proof.
  unfold verifyAccess, bind, fail, ret.
  destruct (JwtService.verifyAccessToken jwt now token) as [claims|e]; [|done].
  destruct (subject claims) as [u|]; [|done].
  destruct (revocation_contains now u st) as [[[]|e] st1]; [done| |done].
  destruct (session_of claims) as [s|]; [|done].
  by destruct (revocation_contains now s st1) as [[[]|e] st2].
Qed.

(** C2. [verifyAccess] has signature and expiry judged first, by
    [JwtService.verifyAccessToken] and without a call of the store: a token
    that is refused there is answered with its token error, the store left as
    it was; with [TokenSignatureInvalid] when its signature is not the one the
    access secret gives, and with [TokenExpired] when it is rightly signed and
    the clock has reached its [exp].  A token that passes is then looked up in
    the revocation index by its subject (and by its [sid], when it has one):
    on a store that meets no fault, if one of them is there the answer is
    [SessionRevoked], otherwise the user id.  Session records are not read: the answer is the same on any two
    stores that agree on the revocation entries.  In particular the unexpired
    access token that [generateAccessToken] issued to a user who is in the
    index is answered with [SessionRevoked]. *)
Theorem verifyAccess_outcomes (st : RedisService.t) (now : Z) (token : string) :
  (forall e, JwtService.verifyAccessToken jwt now token = Throw e ->
     verifyAccess jwt now token st = (Err (token_error e), st)) /\
  (JwtService._accessSecret jwt <> "" ->
   forall d alg,
     jwt_decode token = Some d ->
     header d !! "alg" = Some (JStr alg) -> alg ∈ HS_ALGS ->
     (signature d <> "" ->
      signature d <> jwa_sign alg (JwtService._accessSecret jwt) (securedInput d) ->
        verifyAccess jwt now token st = (Err TokenSignatureInvalid, st)) /\
     (signature d = jwa_sign alg (JwtService._accessSecret jwt) (securedInput d) ->
      payload d !! "nbf" = None ->
      forall exp, payload d !! "exp" = Some (JNum exp) -> exp <= now ->
        verifyAccess jwt now token st = (Err TokenExpired, st))) /\
  (forall claims u,
     JwtService.verifyAccessToken jwt now token = Return claims ->
     subject claims = Some u ->
     Redis.faults (RedisService._client st) = [] ->
     (revoked st now u \/ (exists s, session_of claims = Some s /\ revoked st now s) ->
        verifyAccess jwt now token st = (Err SessionRevoked, st)) /\
     (~ revoked st now u -> (forall s, session_of claims = Some s -> ~ revoked st now s) ->
        verifyAccess jwt now token st = (Ok u, st))) /\
  (forall st', same_revocations now st st' ->
     (verifyAccess jwt now token st').1 = (verifyAccess jwt now token st).1) /\
  (forall issued userId m,
     JwtService._accessSecret jwt <> "" -> JwtService._accessExpiry jwt <> "" ->
     ms (JwtService._accessExpiry jwt) = Some m ->
     Redis.faults (RedisService._client st) = [] ->
     now < issued + m / 1000 ->
     revoked st now userId ->
     exists issuedToken,
       JwtService.generateAccessToken jwt issued userId = Return issuedToken /\
       verifyAccess jwt now issuedToken st = (Err SessionRevoked, st)).
Proof.
  split; [|split; [|split; [|split]]].
  - intros e Hverify. unfold verifyAccess. by rewrite Hverify.
  - intros Hsecret d alg Hdecode Halg Hin.
    unfold verifyAccess, JwtService.verifyAccessToken.
    rewrite (jwt_verify_of_decoded _ _ d) by done.
    rewrite Halg, bool_decide_eq_true_2 by done.
    split.
    + intros Hsig Hmac. by rewrite !decide_False by done.
    + intros Hmac Hnbf exp Hexp Hnow.
      rewrite (decide_False (P := signature d = "")) by
        (rewrite Hmac; apply jwa_sign_nonempty).
      rewrite decide_True by done. unfold check_claims, check_exp.
      rewrite Hnbf, Hexp. by rewrite decide_True by lia.
  - intros claims u Hverify Hsubject Hfaults.
    destruct st as [[m fs]]. cbn in Hfaults. subst fs.
    change {| RedisService._client := {| Redis.keyspace := m; Redis.faults := [] |} |}
      with (RedisService.healthy m).
    rewrite (verifyAccess_healthy m now token claims u Hverify Hsubject).
    cbv zeta. unfold revoked.
    destruct (Redis.lookup _ now (revoked_key u)) as [entry|] eqn:Hsub; cbn [is_some].
    { split; [done|]. intros Hnot. by destruct Hnot. }
    destruct (session_of claims) as [s|] eqn:Hsid.
    + destruct (Redis.lookup _ now (revoked_key s)) as [entry|] eqn:Hs; cbn [is_some].
      * split; [done|]. intros _ Hnot. destruct (Hnot s eq_refl). by rewrite Hs.
      * split; [|done]. intros [Hrev|(s' & [= <-] & Hrev)]; [done|]. by rewrite Hs in Hrev.
    + split; [|done]. intros [Hrev|(s' & ? & _)]; done.
  - intros st' Hsame. rewrite !verifyAccess_steps.
    destruct (JwtService.verifyAccessToken jwt now token) as [claims|e]; [|done].
    destruct (subject claims) as [u|]; [|done].
    destruct (revocation_contains_same now u st st' Hsame) as [Hfst Hsame'].
    destruct (revocation_contains now u st) as [[b|e] st1],
             (revocation_contains now u st') as [[b'|e'] st1'];
      cbn in Hfst, Hsame'; simplify_eq; [|done].
    destruct b; [done|]. destruct (session_of claims) as [s|]; [|done].
    destruct (revocation_contains_same now s st1 st1' Hsame') as [Hfst' _].
    destruct (revocation_contains now s st1) as [[b|e] st2],
             (revocation_contains now s st1') as [[b'|e'] st2'];
      cbn in Hfst'; simplify_eq; [|done].
    by destruct b.
  - intros issued userId m Hsecret Hexpiry Hms Hfaults Hnow Hrevoked.
    eexists.
    split; [apply (generate_returns jwt JwtService.AccessToken); eassumption|].
    pose proof (verify_generated_same jwt JwtService.AccessToken userId issued
                  (issued + m / 1000) now Hsecret Hnow) as Hverify.
    cbn [JwtService.verify JwtService.secret_of] in Hverify.
    destruct st as [[keys fs]]. cbn in Hfaults. subst fs.
    change {| RedisService._client := {| Redis.keyspace := keys; Redis.faults := [] |} |}
      with (RedisService.healthy keys) in *.
    cbn [JwtService.secret_of].
    rewrite (verifyAccess_healthy keys now _ _ userId Hverify eq_refl). cbv beta zeta.
    unfold revoked in Hrevoked.
    by destruct (Redis.lookup _ now (revoked_key userId)).
Qed.

End VerifyAccessClaims.

(** ** The store and the session layer on the concrete configuration *)
Section StoreExamples.
#[local] Existing Instance Reference.primitives.
Import Session.

(** C5, the claim as stated fails: the server cannot be reached, the command
    behind each call waits unanswered, and the call neither returns nor
    throws: no error reaches the caller. *)
Lemma unreachable_store_stays_pending :
  (RedisService.set Example.unreachableService 0 "k" "v" 60).1 = Pending /\
  (RedisService.get Example.unreachableService 0 "k").1 = Pending /\
  (RedisService.del Example.unreachableService 0 "k").1 = Pending /\
  forall e : exn,
    (RedisService.set Example.unreachableService 0 "k" "v" 60).1 <> Throw e /\
    (RedisService.get Example.unreachableService 0 "k").1 <> Throw e /\
    (RedisService.del Example.unreachableService 0 "k").1 <> Throw e.
Proof. repeat split; discriminate. Qed.

(** C5 as amended, at a concrete input: a lost connection under each of the
    three calls. *)
Lemma store_failures_surface_example :
  (RedisService.set Example.brokenService 0 "k" "v" 60).1 = Throw (Error "Redis set failed") /\
  (RedisService.get Example.brokenService 0 "k").1 = Throw (Error "Redis get failed") /\
  (RedisService.del Example.brokenService 0 "k").1 = Throw (Error "Redis delete failed").
Proof.
  exact (proj1 (proj2 (proj2 (proj2
           (store_failures_surface Example.brokenService 0 "k" "v" 60))))
           "ECONNRESET" [] eq_refl).
Defined.

(** C10 at a concrete input: a key that was never set. *)
Lemma get_absent_returns_null_example :
  (RedisService.get Example.redisService 0 "missing").1 = Return None /\
  Return (@None string) <> Throw (Error "Redis get failed").
Proof.
  exact (get_absent_returns_null Example.redisService 0 "missing" eq_refl).
Defined.



(** C2 at a concrete input: [u1] is in the revocation index, and the access
    token issued to [u1] is answered with [SessionRevoked]. *)
Lemma verifyAccess_outcomes_example :
  revoked Example.revokedStore 10 "u1" /\
  exists token,
    JwtService.generateAccessToken Example.jwtService 0 "u1" = Return token /\
    verifyAccess Example.jwtService 10 token Example.revokedStore =
    (Err SessionRevoked, Example.revokedStore).
Proof.
  split; [discriminate|].
  exact (proj2 (proj2 (proj2 (proj2
           (verifyAccess_outcomes Example.jwtService Example.revokedStore 10 ""))))
           0 "u1" 900000 ltac:(done) ltac:(done) eq_refl eq_refl eq_refl
           ltac:(discriminate)).
Defined.

End StoreExamples.

(** * Further properties of the two services *)

(** ** JwtService: what is accepted, what is issued *)
Section JwtServiceMore.
Context {prims : Primitives}.
Import JwtService.

Lemma verify_is_jwt_verify (this : t) (k : TokenKind) (now : Z) (token : string) :
  verify this k now token = jwt_verify token (secret_of this k) 0 now.
Proof. by destruct k. Qed.

(** What [jwt.sign] returned is the signature over the stamped claims. *)
Lemma generate_returned (this : t) (k : TokenKind) (now : Z) (userId token : string) :
  generate this k now userId = Return token ->
  secret_of this k <> "" /\ expiry_of this k <> "" /\
  exists m,
    ms (expiry_of this k) = Some m /\
    token = jws_sign "HS256" jwt_header (signed_claims userId now (now + m / 1000))
              (secret_of this k).
Proof.
  assert (generate this k now userId =
          jwt_sign (<["userId" := JStr userId]> ∅) (secret_of this k) (expiry_of this k) now)
    as -> by (by destruct k).
  unfold jwt_sign, timespan.
  destruct (decide (secret_of this k = "")); [done|].
  destruct (decide (expiry_of this k = "")); [done|].
  destruct (ms (expiry_of this k)) as [m|]; [|done].
  intros [= <-]. eauto.
Qed.

(** A token signed with any of the HMAC algorithms, under any header that
    names the algorithm. *)
Lemma jwt_verify_signed (alg : string) (hd pl : object) (secret : string) (tol now : Z) :
  secret <> "" -> hd !! "alg" = Some (JStr alg) -> alg ∈ HS_ALGS ->
  jwt_verify (jws_sign alg hd pl secret) secret tol now = check_claims pl tol now.
Proof.
  intros Hsecret Halg Hin.
  pose proof (jwt_decode_jws_sign alg hd pl secret) as Hdecode. cbv zeta in Hdecode.
  rewrite (jwt_verify_decoded _ secret alg _ tol now Hdecode Hsecret); cbn; try done.
  - by rewrite decide_True.
  - apply jwa_sign_not_blank.
Qed.

(** X1. [verifyAccessToken] and [verifyRefreshToken] return only for a text
    that decodes into header, payload and signature, whose header names one of
    HS256, HS384, HS512, whose signature is the one the kind's (non-empty)
    secret gives on header and payload, whose [exp], if it has one, is a
    number still ahead of the clock, and whose [nbf], if it has one, is a
    number the clock has reached; what is returned is the decoded payload. *)
Theorem verify_accepts_only_signed_unexpired (this : t) (k : TokenKind) (now : Z)
    (token : string) (claims : object) :
  verify this k now token = Return claims ->
  secret_of this k <> "" /\
  exists d alg,
    jwt_decode token = Some d /\ payload d = claims /\
    header d !! "alg" = Some (JStr alg) /\ alg ∈ HS_ALGS /\
    signature d = jwa_sign alg (secret_of this k) (securedInput d) /\
    (forall v, claims !! "exp" = Some v -> exists exp, v = JNum exp /\ now < exp) /\
    (forall v, claims !! "nbf" = Some v -> exists nbf, v = JNum nbf /\ nbf <= now).
Proof.
  rewrite verify_is_jwt_verify. unfold jwt_verify, jwt_decode.
  destruct (decide (token = "")); [done|].
  destruct (split "." token) as [|h [|p [|s [|? ?]]]]; try done.
  destruct (is_jws h p s); [|done].
  destruct (jws_decode_segment h) as [hd|]; [|done].
  destruct (jws_decode_segment p) as [pl|]; [|done].
  destruct (is_blank s); [by destruct (decide (secret_of this k = ""))|].
  destruct (decide (secret_of this k = "")) as [|Hsecret]; [done|].
  destruct (hd !! "alg") as [[alg|]|] eqn:Halg; try done.
  destruct (bool_decide (alg ∈ HS_ALGS)) eqn:Hin; [|done].
  apply bool_decide_eq_true_1 in Hin.
  destruct (decide (s = jwa_sign alg (secret_of this k) (h +:+ "." +:+ p))) as [Hsig|];
    [|done].
  unfold check_claims, check_exp. intros Hchecks.
  split; [done|]. exists {| header := hd; payload := pl; signature := s;
                            securedInput := h +:+ "." +:+ p |}, alg.
  cbn [header payload signature securedInput].
  assert (pl = claims /\
          (forall v, pl !! "exp" = Some v -> exists exp, v = JNum exp /\ now < exp) /\
          (forall v, pl !! "nbf" = Some v -> exists nbf, v = JNum nbf /\ nbf <= now))
    as (<- & Hexp & Hnbf); [|done].
  destruct (pl !! "nbf") as [[?|nbf]|]; [done| |].
  - destruct (decide (nbf > now + 0)); [done|].
    destruct (pl !! "exp") as [[?|exp]|]; [done| |].
    + destruct (decide (now >= exp + 0)); [done|]. simplify_eq.
      split; [done|]. split; intros v [= <-]; eexists; (split; [done|lia]).
    + simplify_eq. split; [done|]. split; [done|].
      intros v [= <-]; eexists; (split; [done|lia]).
  - destruct (pl !! "exp") as [[?|exp]|]; [done| |].
    + destruct (decide (now >= exp + 0)); [done|]. simplify_eq.
      split; [done|]. split; [|done]. intros v [= <-]; eexists; (split; [done|lia]).
    + by simplify_eq.
Qed.

(** X2. Whatever payload is signed under the kind's secret with HS256, HS384
    or HS512 is returned by verification as it is, as long as it has no [nbf]
    and its [exp] is absent or ahead of the clock: the payload need not have
    a [userId], a token without [exp] never expires, and the algorithm is
    not pinned to the HS256 that the service itself issues. *)
Theorem verify_returns_any_signed_payload (this : t) (k : TokenKind) (now : Z)
    (alg : string) (hd pl : object) :
  secret_of this k <> "" ->
  hd !! "alg" = Some (JStr alg) -> alg ∈ HS_ALGS ->
  pl !! "nbf" = None ->
  (pl !! "exp" = None \/ exists exp, pl !! "exp" = Some (JNum exp) /\ now < exp) ->
  verify this k now (jws_sign alg hd pl (secret_of this k)) = Return pl.
Proof.
  intros Hsecret Halg Hin Hnbf Hexp.
  rewrite verify_is_jwt_verify, jwt_verify_signed by done.
  unfold check_claims, check_exp. rewrite Hnbf.
  destruct Hexp as [->|(exp & -> & Hnow)]; [done|].
  by rewrite decide_False by lia.
Qed.

(** X3. A token names one user and one second of issue: if the same text was
    issued, as the same kind, for two users at two times, the users and the
    times are the same. *)
Theorem generated_token_names_one_user (this : t) (k : TokenKind) (now now' : Z)
    (userId userId' token : string) :
  generate this k now userId = Return token ->
  generate this k now' userId' = Return token ->
  userId = userId' /\ now = now'.
Proof.
  intros (_ & _ & m & Hm & ->)%generate_returned (_ & _ & m' & Hm' & Heq)%generate_returned.
  apply (f_equal jwt_decode) in Heq. rewrite !jwt_decode_jws_sign in Heq.
  cbv zeta in Heq.
  pose proof (f_equal (fun o => d ← o; payload d !! "userId") Heq) as Huser.
  pose proof (f_equal (fun o => d ← o; payload d !! "iat") Heq) as Hiat.
  cbn in Huser, Hiat. by simplify_eq.
Qed.

(** X4. Issuing depends on the configuration only: with an empty secret every
    call throws the [Error] [secretOrPrivateKey must have a value], whatever
    the expiry is; with a secret but an expiry text that is empty or that [ms]
    does not understand every call throws an [Error] as well; otherwise every
    call returns a token.  No user and no time makes a difference. *)
Theorem generate_fails_on_configuration (this : t) (k : TokenKind) (now : Z)
    (userId : string) :
  (secret_of this k = "" ->
     generate this k now userId = Throw (Error "secretOrPrivateKey must have a value")) /\
  (secret_of this k <> "" -> expiry_of this k = "" \/ ms (expiry_of this k) = None ->
     exists message, generate this k now userId = Throw (Error message)) /\
  (returned (generate this k now userId) = true <->
     secret_of this k <> "" /\ expiry_of this k <> "" /\ ms (expiry_of this k) <> None).
Proof.
  assert (generate this k now userId =
          jwt_sign (<["userId" := JStr userId]> ∅) (secret_of this k) (expiry_of this k) now)
    as -> by (by destruct k).
  unfold jwt_sign, timespan.
  destruct (decide (secret_of this k = "")) as [Hs|Hs].
  { split; [done|]. split; [done|]. split; [done|]. by intros [? _]. }
  destruct (decide (expiry_of this k = "")) as [He|He].
  { split; [done|]. split; [by eauto|]. split; [done|]. by intros (_ & ? & _). }
  destruct (ms (expiry_of this k)) as [m|].
  - split; [done|]. split; [by intros _ [?|?]|]. done.
  - split; [done|]. split; [by eauto|]. split; [done|]. by intros (_ & _ & ?).
Qed.


(** X6. A text of three segments whose third is not of the base64url
    alphabet (blanks, say, or [!!!]) is no token: it is refused with
    [invalid token].  A token that decodes is refused without a signature,
    whatever it claims, and so is a signed token whose header names no HMAC
    algorithm (as [none] or [RS256]): the one with
    [jwt signature is required], the other with [invalid algorithm]. *)
Theorem verify_refuses_unsigned_and_other_algorithms (this : t) (k : TokenKind)
    (now : Z) (token : string) :
  secret_of this k <> "" ->
  (forall h p s,
     split "." token = [h; p; s] -> is_base64url s = false ->
     verify this k now token = Throw (JsonWebTokenError "invalid token")) /\
  (forall d,
     jwt_decode token = Some d ->
     (signature d = "" ->
        verify this k now token = Throw (JsonWebTokenError "jwt signature is required")) /\
     (signature d <> "" ->
      (forall alg, header d !! "alg" = Some (JStr alg) -> alg ∉ HS_ALGS) ->
        verify this k now token = Throw (JsonWebTokenError "invalid algorithm"))).
Proof.
  intros Hsecret. rewrite verify_is_jwt_verify. split.
  - intros h p s Hsplit Hs. unfold jwt_verify.
    destruct (decide (token = "")) as [->|_]; [done|].
    rewrite Hsplit. unfold is_jws. rewrite Hs. by rewrite andb_false_r.
  - intros d Hdecode. rewrite (jwt_verify_of_decoded _ _ d) by done.
    split.
    + intros Hsig. by rewrite decide_True.
    + intros Hsig Hother. rewrite decide_False by done.
      destruct (header d !! "alg") as [[alg|]|]; [|done..].
      by rewrite bool_decide_eq_false_2 by by apply Hother.
Qed.

End JwtServiceMore.

(** ** The further properties of JwtService on the concrete configuration *)
Section JwtServiceMoreExamples.
Import JwtService.

(** X1 at a concrete input: the access token of [u1], issued at time 0 and
    accepted at time 10. *)
Lemma verify_accepts_only_signed_unexpired_example :
  let prims := Reference.primitives in
  let token := jws_sign "HS256" jwt_header (signed_claims "u1" 0 900)
                 (secret_of Example.jwtService AccessToken) in
  secret_of Example.jwtService AccessToken <> "" /\
  exists d alg,
    jwt_decode token = Some d /\ payload d = signed_claims "u1" 0 900 /\
    header d !! "alg" = Some (JStr alg) /\ alg ∈ HS_ALGS /\
    signature d = jwa_sign alg (secret_of Example.jwtService AccessToken) (securedInput d) /\
    (forall v, signed_claims "u1" 0 900 !! "exp" = Some v ->
       exists exp, v = JNum exp /\ 10 < exp) /\
    (forall v, signed_claims "u1" 0 900 !! "nbf" = Some v ->
       exists nbf, v = JNum nbf /\ nbf <= 10).
Proof.
  exact (verify_accepts_only_signed_unexpired (prims := Reference.primitives)
           Example.jwtService AccessToken 10 _ _
           (verify_generated_same (prims := Reference.primitives)
              Example.jwtService AccessToken "u1" 0 900 10 ltac:(done) eq_refl)).
Defined.

(** X2 at a concrete input: a payload with a [role] and nothing else, signed
    with HS512 under the access secret, is returned by [verifyAccessToken]. *)
Lemma verify_returns_any_signed_payload_example :
  let prims := Reference.primitives in
  verify Example.jwtService AccessToken 1000000
    (jws_sign "HS512" (<["alg" := JStr "HS512"]> ∅) (<["role" := JStr "admin"]> ∅)
       (secret_of Example.jwtService AccessToken)) =
  Return (<["role" := JStr "admin"]> ∅).
Proof.
  exact (verify_returns_any_signed_payload (prims := Reference.primitives)
           Example.jwtService AccessToken 1000000 "HS512"
           (<["alg" := JStr "HS512"]> ∅) (<["role" := JStr "admin"]> ∅)
           ltac:(done) eq_refl ltac:(repeat constructor) eq_refl (or_introl eq_refl)).
Defined.

(** X3 at a concrete input: the access token of [u1] issued at time 0. *)
Lemma generated_token_names_one_user_example : "u1" = "u1" /\ 0 = 0.
Proof.
  exact (generated_token_names_one_user (prims := Reference.primitives)
           Example.jwtService AccessToken 0 0 "u1" "u1" _
           (generate_returns (prims := Reference.primitives)
              Example.jwtService AccessToken 0 900000 "u1" ltac:(done) ltac:(done) eq_refl)
           (generate_returns (prims := Reference.primitives)
              Example.jwtService AccessToken 0 900000 "u1" ltac:(done) ltac:(done) eq_refl)).
Defined.


(** X6 at a concrete input: a token for [u1] with the algorithm [none] and an
    empty signature. *)
Lemma verify_refuses_unsigned_and_other_algorithms_example :
  let prims := Reference.primitives in
  verify Example.jwtService AccessToken 0
    (base64url (JSON_stringify (<["alg" := JStr "none"]> ∅)) +:+ "." +:+
     base64url (JSON_stringify (<["userId" := JStr "u1"]> ∅)) +:+ ".") =
  Throw (JsonWebTokenError "jwt signature is required").
Proof.
  intros prims.
  pose (h := base64url (JSON_stringify (<["alg" := JStr "none"]> ∅))).
  pose (p := base64url (JSON_stringify (<["userId" := JStr "u1"]> ∅))).
  pose (d := {| header := <["alg" := JStr "none"]> ∅;
                payload := <["userId" := JStr "u1"]> ∅;
                signature := "";
                securedInput := h +:+ "." +:+ p |}).
  assert (jwt_decode (h +:+ "." +:+ p +:+ ".") = Some d) as Hdecode
    by (vm_compute; reflexivity).
  exact (proj1
           (proj2
              (verify_refuses_unsigned_and_other_algorithms
                 Example.jwtService AccessToken 0 (h +:+ "." +:+ p +:+ ".") ltac:(done))
              d Hdecode)
           eq_refl).
Defined.

End JwtServiceMoreExamples.

(** ** RedisService: how the calls compose *)
Section RedisServiceMore.
Import RedisService.

Lemma healthy_eta (this : t) :
  Redis.faults (_client this) = [] -> this = healthy (Redis.keyspace (_client this)).
Proof. destruct this as [[m fs]]. cbn. by intros ->. Qed.

(** X7. What [set] stores, [get] reads back for [expirySeconds] seconds and
    not longer: from the second [now + expirySeconds] on the answer is [null].
    What stood under the key before, and how long it had to live, makes no
    difference, so the last write wins and restarts the time to live.  This is
    so for the times to live that the server takes: whole, positive, and with
    an expiry time that fits its 64-bit milliseconds.  With any other number
    [set] throws [Redis set failed] and leaves the store as it was. *)
Theorem set_get_until_expiry (this : t) (now later : Z) (key value : string) (ttl : Z) :
  Redis.faults (_client this) = [] ->
  (Redis.valid_expire now ttl ->
     (set this now key value ttl).1 = Return tt /\
     (get (set this now key value ttl).2 later key).1 =
     Return (if decide (later < now + ttl) then Some value else None)) /\
  (~ Redis.valid_expire now ttl ->
     set this now key value ttl = (Settled (Throw (Error "Redis set failed")), this)) /\
  set this now key value NotWhole = (Settled (Throw (Error "Redis set failed")), this).
Proof.
  intros Hfaults. split; [|split].
  - intros Httl. rewrite set_ok by done. split; [done|].
    rewrite get_ok by done. cbn [fst snd _client]. by rewrite lookup_insert_key.
  - intros Httl. by apply set_invalid_expiry.
  - by apply set_not_whole.
Qed.

(** X8. [set] and [del] touch one key: whatever they do, and whether the
    client's command fails or not, every other key is read afterwards as it
    was read before. *)
Theorem set_del_leave_other_keys (this : t) (now later : Z) (key other value : string)
    (ttl : Z) :
  key <> other ->
  Redis.lookup (_client (set this now key value ttl).2) later other =
  Redis.lookup (_client this) later other /\
  Redis.lookup (_client (del this now key).2) later other =
  Redis.lookup (_client this) later other.
Proof.
  intros Hne. destruct this as [[m fs]]. unfold set, del, Redis.setEx, Redis.del.
  split.
  - destruct fs as [|[[reason|]|] fs]; cbn; try done;
      destruct (decide (Redis.valid_expire now ttl)); cbn;
      [by apply lookup_insert_other|by destruct (decide (_ <= _ <= _))
      |by apply lookup_insert_other|by destruct (decide (_ <= _ <= _))].
  - destruct fs as [|[[reason|]|] fs]; cbn; try done; by apply lookup_delete_other.
Qed.

(** X9. After [del] the key is gone: [get] answers [null] at every time,
    whatever was stored and however long it had to live, and also when the key
    was written just before. *)
Theorem del_get_null (this : t) (now later : Z) (key value : string) (ttl : Z) :
  Redis.faults (_client this) = [] ->
  (del this now key).1 = Return tt /\
  (get (del this now key).2 later key).1 = Return None /\
  (get (del (set this now key value ttl).2 now key).2 later key).1 = Return None.
Proof.
  intros Hfaults. rewrite (healthy_eta this Hfaults).
  rewrite del_healthy. cbn [fst snd]. split; [done|]. split.
  - rewrite get_healthy. cbn [fst _client healthy]. by rewrite lookup_delete_key.
  - destruct (decide (Redis.valid_expire now ttl)) as [Httl|Httl].
    + rewrite set_healthy by done. cbn [snd]. rewrite del_healthy. cbn [snd].
      rewrite get_healthy. cbn [fst _client healthy]. by rewrite lookup_delete_key.
    + rewrite set_invalid_expiry by done. cbn [snd].
      rewrite del_healthy. cbn [snd].
      rewrite get_healthy. cbn [fst _client healthy]. by rewrite lookup_delete_key.
Qed.

(** X10. A time to live that is not positive is an error and not a way to
    store for ever or to delete: [set] with [expirySeconds <= 0] throws
    [Redis set failed], and every key, the one of the call among them, is
    read afterwards as before. *)
Theorem set_rejects_nonpositive_expiry (this : t) (now later : Z)
    (key other value : string) (ttl : Z) :
  Redis.faults (_client this) = [] -> ttl <= 0 ->
  (set this now key value ttl).1 = Throw (Error "Redis set failed") /\
  (get (set this now key value ttl).2 later other).1 = (get this later other).1.
Proof.
  intros Hfaults Httl.
  by rewrite set_invalid_expiry by (done || intros ?%valid_expire_positive; lia).
Qed.

End RedisServiceMore.

(** ** The further properties of RedisService on the concrete store *)
Section RedisServiceMoreExamples.
Import RedisService.

(** X7 at a concrete input: a value written at time 100 for 60 seconds, read
    at time 159. *)
Lemma set_get_until_expiry_example :
  (set Example.redisService 100 "k" "v" 60).1 = Return tt /\
  (get (set Example.redisService 100 "k" "v" 60).2 159 "k").1 =
  Return (if decide (159 < 100 + 60) then Some "v" else None).
Proof.
  exact (proj1 (set_get_until_expiry Example.redisService 100 159 "k" "v" 60 eq_refl)
           ltac:(vm_compute; intuition discriminate)).
Defined.

(** X8 at a concrete input: the keys [a] and [b]. *)
Lemma set_del_leave_other_keys_example :
  Redis.lookup (_client (set Example.redisService 0 "a" "v" 60).2) 10 "b" =
  Redis.lookup (_client Example.redisService) 10 "b" /\
  Redis.lookup (_client (del Example.redisService 0 "a").2) 10 "b" =
  Redis.lookup (_client Example.redisService) 10 "b".
Proof.
  exact (set_del_leave_other_keys Example.redisService 0 10 "a" "b" "v" 60 ltac:(done)).
Defined.

(** X9 at a concrete input. *)
Lemma del_get_null_example :
  (del Example.redisService 0 "k").1 = Return tt /\
  (get (del Example.redisService 0 "k").2 5 "k").1 = Return None /\
  (get (del (set Example.redisService 0 "k" "v" 60).2 0 "k").2 5 "k").1 = Return None.
Proof.
  exact (del_get_null Example.redisService 0 5 "k" "v" 60 eq_refl).
Defined.

(** X10 at a concrete input: a time to live of 0 seconds. *)
Lemma set_rejects_nonpositive_expiry_example :
  (set Example.redisService 0 "k" "v" 0).1 = Throw (Error "Redis set failed") /\
  (get (set Example.redisService 0 "k" "v" 0).2 5 "k").1 =
  (get Example.redisService 5 "k").1.
Proof.
  exact (set_rejects_nonpositive_expiry Example.redisService 0 5 "k" "k" "v" 0
           eq_refl ltac:(done)).
Defined.

End RedisServiceMoreExamples.

(** ** The bulk upload of images *)
Section BulkUploadImagesFacts.
Import BulkUploadImages.
Variable env : Environment.
Variable dto : BulkUploadDTO.t.

(** Within [2 ^ 53] the sum of two whole numbers is exact. *)
Lemma number_add_exact (a b : Z) :
  Z.abs (a + b) <= 2 ^ 53 -> number_add a b = Whole (a + b).
Proof.
  intros Hexact. unfold number_add, to_double. cbv zeta.
  rewrite (decide_True (P := Z.abs (a + b) <= 2 ^ 53)) by done.
  assert (2 ^ 53 < 2 ^ 1024) by (apply Z.pow_lt_mono_r; lia).
  by rewrite decide_True by lia.
Qed.

(** The loop, when it ends without an error: one upload for each of the
    remaining files, in their order, and one record for each, appended to the
    ones that were there. *)
Lemma upload_each_fulfilled (highestOrder : Z) (remaining : list File) :
  forall (i : nat) (formatted : list Image.t) (calls : list Call)
         (out : list Image.t) (calls' : list Call),
  upload_each env dto highestOrder remaining i formatted calls = (Fulfilled out, calls') ->
  calls' = calls ++ map (fun file => UploadImage (path file)) remaining /\
  exists new,
    out = formatted ++ new /\ length new = length remaining /\
    forall (j : nat) (image : Image.t),
      new !! j = Some image ->
      Image.order image = number_add highestOrder ((Z.of_nat (i + j) + 1) * 1000) /\
      ObjectId env (BulkUploadDTO.userId dto) = Fulfilled (Image.userId image) /\
      Image.title image = default "" (BulkUploadDTO.titles dto !! (i + j)%nat) /\
      Image.originalFileName image =
        default "" (BulkUploadDTO.originalFileNames dto !! (i + j)%nat) /\
      Image.mimeType image = default "" (BulkUploadDTO.mimeTypes dto !! (i + j)%nat) /\
      Image.fileSize image = default 0 (BulkUploadDTO.fileSizes dto !! (i + j)%nat) /\
      exists file,
        remaining !! j = Some file /\
        uploadImage env
          (calls ++ map (fun file => UploadImage (path file)) (take j remaining))
          (path file) = Fulfilled (Image.url image).
Proof.
  induction remaining as [|file remaining IH]; intros i formatted calls out calls'; cbn.
  - intros [= <- <-]. split; [by rewrite app_nil_r|].
    exists []. by rewrite app_nil_r.
  - destruct (uploadImage env calls (path file)) as [url|e] eqn:Hupload; [|done].
    destruct (ObjectId env (BulkUploadDTO.userId dto)) as [oid|e] eqn:Hoid; [|done].
    intros (-> & new & -> & Hlength & Hnew)%IH.
    split; [by rewrite <- app_assoc|].
    eexists (_ :: new). split; [by rewrite <- app_assoc|].
    split; [by cbn; rewrite Hlength|].
    intros [|j] image.
    + intros [= <-]. cbn. rewrite Nat.add_0_r, app_nil_r. eauto 10.
    + cbn. intros Himage. destruct (Hnew j image Himage) as
        (Horder & Hid & Htitle & Hname & Hmime & Hsize & file' & Hfile & Hurl).
      replace (i + S j)%nat with (S i + j)%nat by lia.
      repeat (split; [done|]). exists file'. split; [done|].
      by rewrite <- app_assoc in Hurl.
Qed.

(** The loop never takes a call back: the calls made before are a prefix of
    the calls made after, and the loop calls Cloudinary only. *)
Lemma upload_each_calls (highestOrder : Z) (remaining : list File) :
  forall (i : nat) (formatted : list Image.t) (calls : list Call),
  exists k,
    (upload_each env dto highestOrder remaining i formatted calls).2 =
    calls ++ map (fun file => UploadImage (path file)) (take k remaining) /\
    (forall e, (upload_each env dto highestOrder remaining i formatted calls).1 = Failed e ->
               0 < k)%nat.
Proof.
  induction remaining as [|file remaining IH]; intros i formatted calls; cbn.
  - exists 0%nat. by rewrite app_nil_r.
  - destruct (uploadImage env calls (path file)) as [url|e]; [|by exists 1%nat; split; [|lia]].
    destruct (ObjectId env (BulkUploadDTO.userId dto)) as [oid|e];
      [|by exists 1%nat; split; [|lia]].
    edestruct IH as (k & -> & _). exists (S k). split; [by rewrite <- app_assoc|lia].
Qed.

Lemma rethrow_custom (error : thrown) :
  exists message statusCode, rethrow env error = CustomError message statusCode.
Proof. destruct error; cbn; eauto. Qed.

(** X11. When the five arrays of the request are not all of one length,
    [execute] throws the [CustomError] of [INVALID_FILE_ARRAY] with
    [BAD_REQUEST] before anything is done: the repository is not asked and no
    file is uploaded, not even the files that do have a title. *)
Theorem execute_rejects_mismatched_arrays (calls : list Call) :
  length (BulkUploadDTO.files dto) <> length (BulkUploadDTO.titles dto) \/
  length (BulkUploadDTO.files dto) <> length (BulkUploadDTO.originalFileNames dto) \/
  length (BulkUploadDTO.files dto) <> length (BulkUploadDTO.mimeTypes dto) \/
  length (BulkUploadDTO.files dto) <> length (BulkUploadDTO.fileSizes dto) ->
  execute env dto calls =
  (Failed (CustomError (INVALID_FILE_ARRAY env) (BAD_REQUEST env)), calls).
Proof. intros Hlengths. unfold execute. by rewrite bool_decide_eq_true_2. Qed.

(** X12. When [execute] returns, it has asked for the highest order once,
    uploaded every file once and in the order of the request, and stored all
    records with one [addMany], as its last call.  There is one record for
    each file, in the same order; the record at index [i] has the title, the
    file name, the type and the size at index [i] of the request, the url that
    the upload of file [i] gave, and the order [highestOrder + (i + 1) * 1000]
    as JavaScript adds: the sum itself as long as it is within [2 ^ 53], and
    the double nearest to it beyond. *)
Theorem execute_stores_uploads_in_order (calls calls' : list Call) :
  execute env dto calls = (Fulfilled tt, calls') ->
  exists highestOrder images,
    findMaxOrder env calls (BulkUploadDTO.userId dto) = Fulfilled highestOrder /\
    calls' =
      calls ++ FindMaxOrder (BulkUploadDTO.userId dto) ::
      map (fun file => UploadImage (path file)) (BulkUploadDTO.files dto) ++
      [AddMany images] /\
    length images = length (BulkUploadDTO.files dto) /\
    forall (i : nat) (image : Image.t),
      images !! i = Some image ->
      Image.order image = number_add highestOrder ((Z.of_nat i + 1) * 1000) /\
      (Z.abs (highestOrder + (Z.of_nat i + 1) * 1000) <= 2 ^ 53 ->
         Image.order image = highestOrder + (Z.of_nat i + 1) * 1000) /\
      ObjectId env (BulkUploadDTO.userId dto) = Fulfilled (Image.userId image) /\
      BulkUploadDTO.titles dto !! i = Some (Image.title image) /\
      BulkUploadDTO.originalFileNames dto !! i = Some (Image.originalFileName image) /\
      BulkUploadDTO.mimeTypes dto !! i = Some (Image.mimeType image) /\
      BulkUploadDTO.fileSizes dto !! i = Some (Image.fileSize image) /\
      exists file,
        BulkUploadDTO.files dto !! i = Some file /\
        uploadImage env
          (calls ++ FindMaxOrder (BulkUploadDTO.userId dto) ::
           map (fun file => UploadImage (path file)) (take i (BulkUploadDTO.files dto)))
          (path file) = Fulfilled (Image.url image).
Proof.
  unfold execute, upload_and_store.
  destruct (bool_decide _) eqn:Hlengths; [done|].
  apply bool_decide_eq_false_1 in Hlengths.
  assert (length (BulkUploadDTO.files dto) = length (BulkUploadDTO.titles dto) /\
          length (BulkUploadDTO.files dto) = length (BulkUploadDTO.originalFileNames dto) /\
          length (BulkUploadDTO.files dto) = length (BulkUploadDTO.mimeTypes dto) /\
          length (BulkUploadDTO.files dto) = length (BulkUploadDTO.fileSizes dto))
    as (Htitles & Hnames & Hmimes & Hsizes) by lia.
  destruct (findMaxOrder env calls (BulkUploadDTO.userId dto)) as [highestOrder|e]; [|done].
  destruct (upload_each _ _ _ _ _ _ _) as [[formatted|e] calls1] eqn:Hloop; [|done].
  apply upload_each_fulfilled in Hloop as (-> & new & -> & Hlength & Hnew).
  destruct (addMany env _ _); [|done]. intros [= <-].
  exists highestOrder, new. split; [done|].
  split; [by rewrite <- !app_assoc|]. split; [done|].
  intros i image Himage.
  assert (i < length (BulkUploadDTO.files dto))%nat as Hi
    by (rewrite <- Hlength; by eapply lookup_lt_Some).
  destruct (Hnew i image Himage) as
    (Horder & Hid & Htitle & Hname & Hmime & Hsize & file & Hfile & Hurl).
  cbn in Horder, Htitle, Hname, Hmime, Hsize.
  split; [done|]. split; [intros Hexact; by rewrite Horder, number_add_exact|].
  split; [done|].
  destruct (lookup_lt_is_Some_2 (BulkUploadDTO.titles dto) i ltac:(lia)) as [? Ht].
  destruct (lookup_lt_is_Some_2 (BulkUploadDTO.originalFileNames dto) i ltac:(lia)) as [? Hn].
  destruct (lookup_lt_is_Some_2 (BulkUploadDTO.mimeTypes dto) i ltac:(lia)) as [? Hm].
  destruct (lookup_lt_is_Some_2 (BulkUploadDTO.fileSizes dto) i ltac:(lia)) as [? Hs].
  rewrite Ht in Htitle |- *. rewrite Hn in Hname |- *.
  rewrite Hm in Hmime |- *. rewrite Hs in Hsize |- *. cbn in *. subst.
  repeat (split; [done|]). exists file. split; [done|].
  by rewrite <- app_assoc in Hurl.
Qed.

(** X13. Whatever goes wrong, [execute] throws a [CustomError] and nothing
    else; and when it throws after the check of the arrays, it has asked for
    the highest order, uploaded the first files of the request up to and
    including the one at which it stopped, and either has not called
    [addMany] at all or has called it last and seen it fail.  The uploads that
    were made before the failure are not taken back. *)
Theorem execute_throws_custom_errors_only (calls : list Call) (error : thrown) :
  (execute env dto calls).1 = Failed error ->
  (exists message statusCode, error = CustomError message statusCode) /\
  ((execute env dto calls).2 = calls \/
   exists k,
     let uploads :=
       map (fun file => UploadImage (path file)) (take k (BulkUploadDTO.files dto)) in
     (execute env dto calls).2 =
       calls ++ FindMaxOrder (BulkUploadDTO.userId dto) :: uploads \/
     exists images e,
       k = length (BulkUploadDTO.files dto) /\
       addMany env (calls ++ FindMaxOrder (BulkUploadDTO.userId dto) :: uploads) images =
         Failed e /\
       (execute env dto calls).2 =
         calls ++ FindMaxOrder (BulkUploadDTO.userId dto) :: uploads ++ [AddMany images]).
Proof.
  unfold execute, upload_and_store.
  destruct (bool_decide _); [cbn; intros [= <-]; eauto|].
  destruct (findMaxOrder env calls (BulkUploadDTO.userId dto)) as [highestOrder|e].
  - pose proof (upload_each_calls highestOrder (BulkUploadDTO.files dto) 0 []
                  (calls ++ [FindMaxOrder (BulkUploadDTO.userId dto)])) as (k & Hcalls & _).
    destruct (upload_each _ _ _ _ _ _ _) as [[formatted|e] calls1] eqn:Hloop.
    + apply upload_each_fulfilled in Hloop as (-> & _).
      destruct (addMany env _ formatted) as [|e] eqn:Hadd; [done|].
      cbn. intros [= <-]. split; [apply rethrow_custom|].
      right. exists (length (BulkUploadDTO.files dto)). right. exists formatted, e.
      rewrite firstn_all. rewrite <- app_assoc in Hadd.
      split; [done|]. split; [exact Hadd|]. by rewrite <- !app_assoc.
    + cbn in Hcalls |- *. intros [= <-]. split; [apply rethrow_custom|].
      right. exists k. left. by rewrite Hcalls, <- app_assoc.
  - cbn. intros [= <-]. split; [apply rethrow_custom|].
    right. exists 0%nat. left. done.
Qed.

End BulkUploadImagesFacts.

(** ** The bulk upload on concrete requests *)
Section BulkUploadImagesExamples.
Import BulkUploadImages.

(** X11 at a concrete input: two files and one title. *)
Lemma execute_rejects_mismatched_arrays_example :
  execute exampleEnvironment mismatchedDTO [] =
  (Failed (CustomError "Invalid file array" 400), []).
Proof.
  exact (execute_rejects_mismatched_arrays exampleEnvironment mismatchedDTO []
           ltac:(left; vm_compute; discriminate)).
Defined.

(** Beyond [2 ^ 53] the order is the nearest double: on top of [2 ^ 63] the
    first step of 1000 is lost. *)
Lemma number_add_rounds : number_add (2 ^ 63) 1000 = Whole (2 ^ 63).
Proof. vm_compute. reflexivity. Qed.

(** X12 at a concrete input: two files, on top of the order 3000. *)
Lemma execute_stores_uploads_in_order_example :
  exists images,
    length images = 2%nat /\
    forall (i : nat) (image : Image.t),
      images !! i = Some image ->
      Image.order image = number_add 3000 ((Z.of_nat i + 1) * 1000).
Proof.
  destruct (execute_stores_uploads_in_order exampleEnvironment exampleDTO []
              (execute exampleEnvironment exampleDTO []).2
              ltac:(vm_compute; reflexivity))
    as (highestOrder & images & Hmax & _ & Hlength & Himages).
  injection Hmax as <-. exists images. split; [exact Hlength|].
  intros i image Himage. exact (proj1 (Himages i image Himage)).
Defined.

(** X13 at a concrete input: Cloudinary refuses the second file with an error
    without a message; [a.png] has been uploaded and nothing is stored. *)
Lemma execute_throws_custom_errors_only_example :
  exists message statusCode,
    CustomError "Upload failed" 500 = CustomError message statusCode.
Proof.
  exact (proj1 (execute_throws_custom_errors_only failingEnvironment exampleDTO []
                  (CustomError "Upload failed" 500) ltac:(vm_compute; reflexivity))).
Defined.

End BulkUploadImagesExamples.

(** ** The token in localStorage and the interceptors *)
Section AxiosFacts.
Import Axios.

Lemma truthy_Some (value : string) : truthy (Some value) = bool_decide (value <> "").
Proof. by destruct value. Qed.

Lemma truthy_true (value : option string) :
  truthy value = true -> exists token, value = Some token /\ token <> "".
Proof. destruct value as [[|a token]|]; [done| |done]. intros _. by eexists. Qed.

(** X14. The token helpers are a round trip on one key of localStorage:
    [getAuthToken] gives what [setAuthToken] stored and [null] after
    [removeAuthToken]; no other key is touched by either; and
    [isAuthenticated] is true exactly when a token that is not the empty
    string is stored, so storing the empty string does not authenticate. *)
Theorem auth_token_round_trip (w : Window) (token : string) :
  getAuthToken (setAuthToken token w) = Some token /\
  isAuthenticated (setAuthToken token w) = bool_decide (token <> "") /\
  getAuthToken (removeAuthToken w) = None /\
  isAuthenticated (removeAuthToken w) = false /\
  (forall key, key <> TOKEN_KEY ->
     getItem key (setAuthToken token w) = getItem key w /\
     getItem key (removeAuthToken w) = getItem key w).
Proof.
  unfold isAuthenticated, getAuthToken, setAuthToken, removeAuthToken, getItem. cbn.
  rewrite lookup_insert_eq, lookup_delete_eq.
  split; [done|]. split; [apply truthy_Some|]. split; [done|]. split; [done|].
  intros key Hkey. by rewrite lookup_insert_ne, lookup_delete_ne.
Qed.

(** X15. Once a token that is not empty is stored, the request interceptor
    sets the header [Authorization] of every request that has headers to
    [Bearer] and the token, in place of what the header was, and changes
    nothing else of the request.  After [removeAuthToken], with the empty
    string stored, or for a request without headers, the request goes out as
    it came: a header [Authorization] that it had is not taken away. *)
Theorem requestInterceptor_after_helpers (w : Window) (token : string)
    (config : InternalAxiosRequestConfig) :
  (token <> "" ->
   requestInterceptor (setAuthToken token w) config =
   match headers config with
   | Some hs =>
       {| url := url config; method := method config;
          headers := Some (<["Authorization" := "Bearer " +:+ token]> hs);
          data := data config |}
   | None => config
   end) /\
  requestInterceptor (setAuthToken "" w) config = config /\
  requestInterceptor (removeAuthToken w) config = config.
Proof.
  unfold requestInterceptor, getItem, setAuthToken, removeAuthToken. cbn.
  rewrite !lookup_insert_eq, lookup_delete_eq. cbn.
  split; [|done]. intros Htoken. destruct token; [done|]. cbn.
  by destruct (headers config).
Qed.

(** X16. The handler of failed responses always rejects with the error it
    was given.  On a response with status 401 it removes the token, touches
    no other key of localStorage, and assigns [/login] to the location unless
    the path already contains [/login]; requests sent afterwards get no
    [Authorization] header.  On every other failure (another status, no
    response) it leaves localStorage and the location as they are. *)
Theorem responseErrorHandler_unauthorized (w : Window) (error : AxiosError.t) :
  let w' := (responseErrorHandler w error).2 in
  (responseErrorHandler w error).1 = error /\
  pathname w' = pathname w /\
  ((exists response,
      AxiosError.response error = Some response /\ AxiosResponse.status response = 401) ->
   getAuthToken w' = None /\ isAuthenticated w' = false /\
   (forall key, key <> TOKEN_KEY -> getItem key w' = getItem key w) /\
   href w' = (if includes "/login" (pathname w) then href w else Some "/login") /\
   (forall config, requestInterceptor w' config = config)) /\
  ((forall response,
      AxiosError.response error = Some response -> AxiosResponse.status response <> 401) ->
   localStorage w' = localStorage w /\ href w' = href w).
Proof.
  cbv zeta. unfold responseErrorHandler.
  destruct (AxiosError.response error) as [response|].
  - destruct (decide (AxiosResponse.status response = 401)) as [Hstatus|Hstatus].
    + assert (forall v : Window,
                localStorage v = delete TOKEN_KEY (localStorage w) ->
                getAuthToken v = None /\ isAuthenticated v = false /\
                (forall key, key <> TOKEN_KEY -> getItem key v = getItem key w) /\
                (forall config, requestInterceptor v config = config)) as Hcleared.
      { intros v Hv.
        unfold isAuthenticated, getAuthToken, requestInterceptor, getItem.
        rewrite !Hv, !lookup_delete_eq.
        split; [done|]. split; [done|]. split; [|done].
        intros key Hkey. by rewrite lookup_delete_ne. }
      cbn [pathname removeItem log]. destruct (includes "/login" (pathname w));
        cbn [negb fst snd];
        (split; [done|]; split; [done|];
         split; [|by intros Hother; destruct (Hother response)]);
        intros _;
        match goal with
        | |- getAuthToken ?v = None /\ _ =>
            destruct (Hcleared v eq_refl) as (Htoken & Hauth & Hkeys & Hrequests)
        end; done.
    + cbn. split; [done|]. split; [done|]. split; [|done].
      by intros (? & [= <-] & ?).
  - destruct (AxiosError.request error); cbn; (split; [done|]; split; [done|]; split; [|done]);
      by intros (? & ? & ?).
Qed.

End AxiosFacts.

(** ** The authentication slice *)
Section AuthSliceFacts.
Import AuthSlice.

Lemma reducer_consistent (state : AuthState) (action : Action) :
  isAuthenticated state = is_some (user state) ->
  isAuthenticated (reducer state action) = is_some (user (reducer state action)).
Proof. by destruct action as [| | | | | | | |[payload|]| |]. Qed.

(** X17. In every state that the reducer reaches from the initial state,
    whatever the actions and their order, [isAuthenticated] is true exactly
    when there is a [user]. *)
Theorem auth_state_consistent (actions : list Action) :
  let state := foldl reducer initialState actions in
  isAuthenticated state = is_some (user state).
Proof.
  cbv zeta. induction actions as [|action actions IH] using rev_ind; [done|].
  rewrite foldl_app. cbn. by apply reducer_consistent.
Qed.

(** X18. [dispatch(loginUser(credentials))] with the demo credentials ends
    with the user signed in under the e-mail of the credentials, no error, and
    a token under the token key that makes [isAuthenticated()] of the Axios
    module true.  With any other credentials it ends with the error
    [Invalid email or password], leaves localStorage as it is, and leaves
    [user] and [isAuthenticated] as they were: a failed login does not sign
    out who was signed in. *)
Theorem login_dispatch (credentials : LoginCredentials.t) (now : Z) (isoNow : string)
    (state : AuthState) (w : Axios.Window) :
  let store := dispatch (LoginUser credentials) now isoNow (state, w) in
  isLoading store.1 = false /\
  if bool_decide (LoginCredentials.email credentials = "demo@skillforge.ai" /\
                  LoginCredentials.password credentials = "demo123")
  then
    isAuthenticated store.1 = true /\
    User.email <$> user store.1 = Some (LoginCredentials.email credentials) /\
    error store.1 = None /\
    Axios.getAuthToken store.2 = Some ("mock-jwt-token-" +:+ pretty now) /\
    Axios.isAuthenticated store.2 = true
  else
    error store.1 = Some "Invalid email or password" /\
    user store.1 = user state /\
    isAuthenticated store.1 = isAuthenticated state /\
    store.2 = w.
Proof.
  cbv zeta. unfold dispatch, dispatchWith, loginUser.
  destruct (decide (LoginCredentials.email credentials = "demo@skillforge.ai")) as [He|He];
    destruct (decide (LoginCredentials.password credentials = "demo123")) as [Hp|Hp].
  - rewrite !bool_decide_eq_true_2 by done. cbn.
    unfold Axios.isAuthenticated, Axios.getAuthToken, Axios.setAuthToken, Axios.getItem.
    cbn. change "skillforge_auth_token" with Axios.TOKEN_KEY.
    by rewrite !lookup_insert_eq.
  - rewrite (bool_decide_eq_false_2 (_ = "demo123")) by done.
    rewrite (bool_decide_eq_false_2 (_ /\ _)) by (by intros [_ ?]).
    by rewrite andb_false_r.
  - rewrite (bool_decide_eq_false_2 (_ = "demo@skillforge.ai")) by done.
    by rewrite (bool_decide_eq_false_2 (_ /\ _)) by (by intros [? _]).
  - rewrite (bool_decide_eq_false_2 (_ = "demo@skillforge.ai")) by done.
    by rewrite (bool_decide_eq_false_2 (_ /\ _)) by (by intros [? _]).
Qed.

(** X19. [dispatch(logoutUser())] removes the token and clears the user,
    whoever was signed in; a [dispatch(checkSession())] after it finds no
    token and leaves the user signed out. *)
Theorem logout_dispatch (now later : Z) (isoNow isoLater : string)
    (state : AuthState) (w : Axios.Window) :
  let store := dispatch LogoutUser now isoNow (state, w) in
  let store' := dispatch CheckSession later isoLater store in
  user store.1 = None /\ isAuthenticated store.1 = false /\
  Axios.getAuthToken store.2 = None /\ Axios.isAuthenticated store.2 = false /\
  user store'.1 = None /\ isAuthenticated store'.1 = false /\
  isLoading store'.1 = false /\ store'.2 = store.2.
Proof.
  cbv zeta. unfold dispatch, dispatchWith, logoutUser, checkSession. cbn.
  unfold Axios.isAuthenticated, Axios.getAuthToken, Axios.removeAuthToken, Axios.getItem.
  cbn. change "skillforge_auth_token" with Axios.TOKEN_KEY.
  by rewrite !lookup_delete_eq.
Qed.

(** X20. [dispatch(checkSession())] ends with [isLoading] false and leaves
    the error as it is.  When the read of the token goes through, it reads
    the token and nothing else and writes nothing: with a token that is not
    empty it signs in the demo user, whatever the token is; without one it
    leaves [user] and [isAuthenticated] as they are.  When the read throws,
    the [catch] clause removes the token and the user stays as signed in or
    out as before; and when that removal throws as well, the thunk is
    rejected and the user is signed out. *)
Theorem checkSession_dispatch (script : list (option string)) (now : Z) (isoNow : string)
    (state : AuthState) (w : Axios.Window) :
  let store := dispatchWith script CheckSession now isoNow (state, w) in
  isLoading store.1 = false /\ error store.1 = error state /\
  match storage_call script with
  | (None, _) =>
      store.2 = w /\
      if Axios.isAuthenticated w
      then isAuthenticated store.1 = true /\
           user store.1 =
             Some {| User.id := "user-1"; User.email := "demo@skillforge.ai";
                     User.name := "Demo User"; User.avatar := None;
                     User.createdAt := isoNow |}
      else isAuthenticated store.1 = isAuthenticated state /\ user store.1 = user state
  | (Some _, rest) =>
      match storage_call rest with
      | (None, _) =>
          store.2 = Axios.removeAuthToken w /\ Axios.getAuthToken store.2 = None /\
          isAuthenticated store.1 = isAuthenticated state /\ user store.1 = user state
      | (Some _, _) =>
          store.2 = w /\ isAuthenticated store.1 = false /\ user store.1 = None
      end
  end.
Proof.
  cbv zeta. unfold dispatchWith, checkSession.
  destruct (storage_call script) as [[message|] rest].
  - destruct (storage_call rest) as [[message'|] rest']; [done|].
    cbn. repeat (split; [done|]). split; [|done].
    unfold Axios.getAuthToken, Axios.removeAuthToken, Axios.getItem. cbn.
    by rewrite lookup_delete_eq.
  - unfold Axios.isAuthenticated, Axios.getAuthToken.
    change "skillforge_auth_token" with Axios.TOKEN_KEY.
    by destruct (Axios.truthy (Axios.getItem Axios.TOKEN_KEY w)).
Qed.

End AuthSliceFacts.

(** ** The authentication slice on a browser that blocks localStorage *)
Section AuthSliceExamples.
Import AuthSlice.

(** X20 at a concrete input: the demo user is signed in, and both the read
    and the removal of the token throw; [checkSession] signs the user out. *)
Lemma checkSession_dispatch_example :
  let store :=
    dispatchWith [Some "SecurityError"; Some "SecurityError"] CheckSession 0
      "2024-02-01T00:00:00.000Z" (signedInState, Axios.exampleWindow) in
  store.2 = Axios.exampleWindow /\ isAuthenticated store.1 = false /\ user store.1 = None.
Proof.
  exact (proj2 (proj2 (checkSession_dispatch [Some "SecurityError"; Some "SecurityError"]
                         0 "2024-02-01T00:00:00.000Z" signedInState Axios.exampleWindow))).
Defined.

End AuthSliceExamples.

(** ** The roadmap slice: [toggleStepComplete] *)
Section RoadmapSliceFacts.
Import RoadmapSlice.
Variable percentage : nat -> nat -> Z.
Variable isoNow : string.
#[local] Arguments completedSteps : simpl never.

Lemma toggle_toggle (step : RoadmapStep.t) : toggle (toggle step) = step.
Proof. destruct step as [? ? ? ? ? []]; reflexivity. Qed.

(** [find] finds nothing when no step has the id. *)
Lemma toggle_step_None (stepId : string) (steps : list RoadmapStep.t) :
  (forall step, step ∈ steps -> RoadmapStep.id step <> stepId) ->
  toggle_step stepId steps = None.
Proof.
  induction steps as [|step steps IH]; [done|]. intros Hsteps. cbn.
  rewrite decide_False by (apply Hsteps; left).
  rewrite IH; [done|]. intros step' Hin. apply Hsteps. by right.
Qed.

(** [find] finds the first step with the id. *)
Lemma toggle_step_Some (stepId : string) (steps : list RoadmapStep.t) :
  forall (j : nat) (step : RoadmapStep.t),
  steps !! j = Some step -> RoadmapStep.id step = stepId ->
  (forall k s, (k < j)%nat -> steps !! k = Some s -> RoadmapStep.id s <> stepId) ->
  toggle_step stepId steps = Some (<[j := toggle step]> steps).
Proof.
  induction steps as [|first steps IH]; intros j step Hj Hid Hbefore; [done|].
  destruct j as [|j]; cbn in *.
  - injection Hj as ->. by rewrite decide_True.
  - rewrite decide_False by (apply (Hbefore 0%nat); [lia|done]).
    rewrite (IH j step Hj Hid); [done|].
    intros k s Hk Hs. apply (Hbefore (S k)); [lia|done].
Qed.

Lemma completedSteps_cons (step : RoadmapStep.t) (steps : list RoadmapStep.t) :
  completedSteps (step :: steps) =
  ((if RoadmapStep.isCompleted step then 1 else 0) + completedSteps steps)%nat.
Proof.
  unfold completedSteps. rewrite filter_cons.
  destruct (RoadmapStep.isCompleted step) eqn:Hstep.
  - by rewrite decide_True.
  - by rewrite decide_False.
Qed.

(** Flipping one step moves the number of completed steps by one. *)
Lemma completedSteps_toggle (steps : list RoadmapStep.t) :
  forall (j : nat) (step : RoadmapStep.t),
  steps !! j = Some step ->
  (completedSteps (<[j := toggle step]> steps) +
   (if RoadmapStep.isCompleted step then 1 else 0) =
   completedSteps steps + (if RoadmapStep.isCompleted step then 0 else 1))%nat.
Proof.
  induction steps as [|first steps IH]; intros j step Hj; [done|].
  destruct j as [|j]; cbn in *.
  - injection Hj as ->. rewrite !completedSteps_cons. cbn.
    destruct (RoadmapStep.isCompleted step); cbn; lia.
  - rewrite !completedSteps_cons, <- !Nat.add_assoc. f_equal. exact (IH j step Hj).
Qed.

(** Flipping the step that was flipped gives the steps back. *)
Lemma toggle_step_twice (stepId : string) (steps steps' : list RoadmapStep.t) :
  toggle_step stepId steps = Some steps' -> toggle_step stepId steps' = Some steps.
Proof.
  revert steps'. induction steps as [|step steps IH]; intros steps'; [done|]. cbn.
  destruct (decide (RoadmapStep.id step = stepId)) as [Hid|Hid].
  - intros [= <-]. cbn. rewrite decide_True by done. by rewrite toggle_toggle.
  - destruct (toggle_step stepId steps) as [rest|]; [|done].
    intros [= <-]. cbn. rewrite decide_False by done. by rewrite (IH rest).
Qed.

Lemma toggle_roadmap_None (roadmapId stepId : string) (roadmaps : list Roadmap.t) :
  (forall roadmap, roadmap ∈ roadmaps -> Roadmap.id roadmap = roadmapId ->
     forall step, step ∈ Roadmap.steps roadmap -> RoadmapStep.id step <> stepId) ->
  toggle_roadmap percentage isoNow roadmapId stepId roadmaps = roadmaps.
Proof.
  induction roadmaps as [|roadmap roadmaps IH]; [done|]. intros Hnone. cbn.
  destruct (decide (Roadmap.id roadmap = roadmapId)) as [Hid|Hid].
  - unfold toggle_in. rewrite toggle_step_None; [done|].
    apply (Hnone roadmap); [left|done].
  - rewrite IH; [done|]. intros roadmap' Hin. apply Hnone. by right.
Qed.

(** X21. [toggleStepComplete] for a roadmap that is not saved, or for a step
    that the roadmap does not have, changes nothing at all: no step, no
    progress, no [updatedAt]. *)
Theorem toggleStepComplete_unknown (state : RoadmapState) (roadmapId stepId : string) :
  (forall roadmap, roadmap ∈ savedRoadmaps state -> Roadmap.id roadmap = roadmapId ->
     forall step, step ∈ Roadmap.steps roadmap -> RoadmapStep.id step <> stepId) ->
  reducer percentage isoNow state (toggleStepComplete roadmapId stepId) = state.
Proof.
  intros Hnone. cbn. rewrite toggle_roadmap_None by done. by destruct state.
Qed.

(** X22. [toggleStepComplete] changes the first saved roadmap with the id,
    and in it the first step with the id, and nothing else: the step's
    [isCompleted] is flipped, the number of completed steps of the roadmap
    moves by one, its progress becomes the percentage of that number in the
    number of its steps, and its [updatedAt] the time of the action.  All
    other roadmaps and steps stay, later ones with the same id among them,
    and so does the selected roadmap, also when it is the one that was
    changed. *)
Theorem toggleStepComplete_first_match (state : RoadmapState) (roadmapId stepId : string)
    (i j : nat) (roadmap : Roadmap.t) (step : RoadmapStep.t) :
  savedRoadmaps state !! i = Some roadmap -> Roadmap.id roadmap = roadmapId ->
  (forall k r, (k < i)%nat -> savedRoadmaps state !! k = Some r ->
               Roadmap.id r <> roadmapId) ->
  Roadmap.steps roadmap !! j = Some step -> RoadmapStep.id step = stepId ->
  (forall k s, (k < j)%nat -> Roadmap.steps roadmap !! k = Some s ->
               RoadmapStep.id s <> stepId) ->
  let state' := reducer percentage isoNow state (toggleStepComplete roadmapId stepId) in
  exists roadmap',
    savedRoadmaps state' = <[i := roadmap']> (savedRoadmaps state) /\
    Roadmap.steps roadmap' = <[j := toggle step]> (Roadmap.steps roadmap) /\
    (completedSteps (Roadmap.steps roadmap') +
     (if RoadmapStep.isCompleted step then 1 else 0) =
     completedSteps (Roadmap.steps roadmap) +
     (if RoadmapStep.isCompleted step then 0 else 1))%nat /\
    Roadmap.progress roadmap' =
      percentage (completedSteps (Roadmap.steps roadmap'))
        (length (Roadmap.steps roadmap)) /\
    Roadmap.updatedAt roadmap' = isoNow /\
    Roadmap.id roadmap' = roadmapId /\
    selectedRoadmap state' = selectedRoadmap state /\
    draftRoadmap state' = draftRoadmap state.
Proof.
  intros Hi Hid Hfirst Hj Hstep Hbefore. cbn.
  exists (toggle_in percentage isoNow stepId roadmap). split.
  - clear Hj Hstep Hbefore. revert i Hi Hfirst.
    induction (savedRoadmaps state) as [|first roadmaps IH]; intros i Hi Hfirst; [done|].
    destruct i as [|i]; cbn in *.
    + injection Hi as ->. by rewrite decide_True.
    + rewrite decide_False by (apply (Hfirst 0%nat); [lia|done]).
      f_equal. apply IH; [done|]. intros k r Hk Hr. apply (Hfirst (S k)); [lia|done].
  - unfold toggle_in. rewrite (toggle_step_Some stepId _ j step Hj Hstep Hbefore). cbn.
    rewrite length_insert. repeat split; try done. by apply completedSteps_toggle.
Qed.

Lemma toggle_in_twice (iso' : string) (stepId : string) (roadmap : Roadmap.t) :
  Roadmap.steps
    (toggle_in percentage iso' stepId (toggle_in percentage isoNow stepId roadmap)) =
  Roadmap.steps roadmap /\
  Roadmap.id (toggle_in percentage isoNow stepId roadmap) = Roadmap.id roadmap.
Proof.
  unfold toggle_in.
  destruct (toggle_step stepId (Roadmap.steps roadmap)) as [steps|] eqn:Hsteps.
  - cbn. by rewrite (toggle_step_twice stepId _ _ Hsteps).
  - by rewrite Hsteps.
Qed.

(** X23. Two [toggleStepComplete] for the same roadmap and step, at whatever
    times, give every saved roadmap the steps it had: the second undoes the
    flip of the first.  The saved roadmaps stay as many, with their ids in
    the same order. *)
Theorem toggleStepComplete_twice (iso' : string) (state : RoadmapState)
    (roadmapId stepId : string) :
  let once := reducer percentage isoNow state (toggleStepComplete roadmapId stepId) in
  let twice := reducer percentage iso' once (toggleStepComplete roadmapId stepId) in
  Roadmap.steps <$> savedRoadmaps twice = Roadmap.steps <$> savedRoadmaps state /\
  Roadmap.id <$> savedRoadmaps once = Roadmap.id <$> savedRoadmaps state /\
  Roadmap.id <$> savedRoadmaps twice = Roadmap.id <$> savedRoadmaps state.
Proof.
  cbn. induction (savedRoadmaps state) as [|roadmap roadmaps IH]; [done|]. cbn.
  destruct (decide (Roadmap.id roadmap = roadmapId)) as [Hid|Hid].
  - destruct (toggle_in_twice iso' stepId roadmap) as [Hsteps Hsame]. cbn.
    rewrite decide_True by (by rewrite Hsame). cbn.
    rewrite Hsteps, Hsame.
    assert (Roadmap.id (toggle_in percentage iso' stepId
                          (toggle_in percentage isoNow stepId roadmap)) =
            Roadmap.id roadmap) as ->; [|done].
    unfold toggle_in at 1.
    destruct (toggle_step _ _); cbn; by rewrite ?Hsame.
  - cbn. rewrite decide_False by done. cbn.
    destruct IH as (-> & -> & ->). done.
Qed.

End RoadmapSliceFacts.

(** ** The roadmap slice on a concrete state *)
Section RoadmapSliceExamples.
Import RoadmapSlice.

(** The progress is rounded as JavaScript rounds it. *)
Lemma progressOf_rounds :
  progressOf 2 3 = 67 /\ progressOf 1 3 = 33 /\ progressOf 23 40 = 57 /\
  progressOf 3 3 = 100.
Proof. vm_compute. repeat split; reflexivity. Qed.

(** X21 at a concrete input: the roadmap [saved-1] has no step [9]. *)
Lemma toggleStepComplete_unknown_example :
  reducer progressOf "2024-02-01T00:00:00.000Z" exampleState
    (toggleStepComplete "saved-1" "9") = exampleState.
Proof.
  apply (toggleStepComplete_unknown progressOf "2024-02-01T00:00:00.000Z"
           exampleState "saved-1" "9").
  intros roadmap Hroadmap _ step Hstep.
  apply list_elem_of_singleton in Hroadmap. subst roadmap.
  cbn in Hstep. set_unfold in Hstep. by destruct Hstep as [->|[->|[->|[]]]].
Defined.

(** X22 at a concrete input: the third step of [saved-1], which is open; the
    roadmap was stored with the progress 66. *)
Lemma toggleStepComplete_first_match_example :
  exists roadmap',
    savedRoadmaps (reducer progressOf "2024-02-01T00:00:00.000Z" exampleState
                     (toggleStepComplete "saved-1" "3")) =
      <[0%nat := roadmap']> (savedRoadmaps exampleState) /\
    Roadmap.steps roadmap' =
      <[2%nat := toggle (exampleStep "3" 3 false)]> (Roadmap.steps exampleRoadmap) /\
    Roadmap.progress roadmap' =
      progressOf (completedSteps (Roadmap.steps roadmap'))
        (length (Roadmap.steps exampleRoadmap)).
Proof.
  destruct (toggleStepComplete_first_match progressOf "2024-02-01T00:00:00.000Z"
              exampleState "saved-1" "3" 0 2 exampleRoadmap (exampleStep "3" 3 false)
              eq_refl eq_refl
              ltac:(intros k r Hk; exfalso; exact (Nat.nlt_0_r k Hk))
              eq_refl eq_refl
              ltac:(intros [|[|k]] s Hk Hs;
                    [injection Hs as <-; discriminate
                    |injection Hs as <-; discriminate
                    |exfalso; apply (Nat.lt_irrefl 2); apply Nat.le_lt_trans with (S (S k));
                     [apply le_n_S, le_n_S, Nat.le_0_l|exact Hk]]))
    as (roadmap' & Hsaved & Hsteps & _ & Hprogress & _).
  exists roadmap'. exact (conj Hsaved (conj Hsteps Hprogress)).
Defined.

End RoadmapSliceExamples.
